(** * textfile-exporter: the scan loop of [main.go] and its collector

    A shallow embedding of the background scan job of [src/main.go]
    (lines 81-243): the pass over the configured path, the per-file
    processing (age check, external command, parsing) and the
    translation of decoded metric families into [collector.Add] calls.

    Effects are explicit.  Every read of the wall clock takes the next
    reading of the pass's clock, and everything the job does to the
    outside (log lines, the external command, the collector calls, the
    sleep) is recorded, in program order, in a trace of events.  The
    file system, the text parser and the external command are oracles of
    a [World]. *)

From Stdlib Require Import ZArith String Ascii List Lia Bool.
From stdpp Require Import base option list gmap strings fin_maps.

Local Open Scope Z_scope.

(** ** Machine integers and time *)

(** Go's [int64] arithmetic wraps around; [wrap64] is the value an
    [int64] holds after an operation whose exact result is [z]. *)
Definition int64_min : Z := - 2 ^ 63.
Definition int64_max : Z := 2 ^ 63 - 1.
Definition wrap64 (z : Z) : Z := (z + 2 ^ 63) mod 2 ^ 64 - 2 ^ 63.

(** A [time.Time] is the number of nanoseconds since the Unix epoch, a
    [time.Duration] a number of nanoseconds. *)
Definition Time := Z.
Definition Duration := Z.
Definition Millisecond : Z := 1000000.
Definition Hour : Z := 3600 * 1000000000.

(** [t.UnixNano()] is an [int64]. *)
Definition UnixNano (t : Time) : Z := wrap64 t.
(** [time.Unix(0, nsec)]. *)
Definition Unix0 (nsec : Z) : Time := nsec.
(** [t.After(u)]. *)
Definition After (t u : Time) : bool := u <? t.
(** [t.Add(d)]. *)
Definition TimeAdd (t : Time) (d : Duration) : Time := t + d.
(** [t.Sub(u)]; the saturation of the result at the ends of [int64] is
    out of reach of the instants a clock or a file system produces. *)
Definition TimeSub (t u : Time) : Duration := t - u.

(** A [float64] is carried as its IEEE-754 bit pattern: the program
    moves values around and never computes with them. *)
Definition float64 := Z.

(** ** Strings *)

(** [strings.HasSuffix(s, suffix)]. *)
Definition HasSuffix (s suffix : string) : bool :=
  let n := String.length s in
  let k := String.length suffix in
  (k <=? n)%nat && String.eqb (substring (n - k) k s) suffix.

(** [strings.ReplaceAll(s, "{}", new)]: the occurrences of the
    placeholder are replaced from left to right, and the text put in is
    not scanned again. *)
Fixpoint ReplaceAll_placeholder (s new : string) : string :=
  match s with
  | EmptyString => EmptyString
  | String "{" (String "}" rest) => new +:+ ReplaceAll_placeholder rest new
  | String c rest => String c (ReplaceAll_placeholder rest new)
  end.

(** ** The decoded input ([dto] of client_model) *)

Inductive MetricType :=
| MetricType_COUNTER
| MetricType_GAUGE
| MetricType_SUMMARY
| MetricType_UNTYPED
| MetricType_HISTOGRAM
| MetricType_GAUGE_HISTOGRAM.

Record LabelPair := { lp_name : string; lp_value : string }.

(** The optional fields of a [dto.Metric] are pointers; [None] is nil. *)
Record Metric := {
  m_label : list LabelPair;
  m_gauge : option float64;
  m_counter : option float64;
  m_untyped : option float64;
  m_timestamp_ms : option Z
}.

Record MetricFamily := {
  mf_help : string;
  mf_type : MetricType;
  mf_metric : list Metric
}.

(** The getters return the zero value on nil. *)
Definition GetValue (v : option float64) : float64 := default 0 v.
Definition GetTimestampMs (m : Metric) : Z := default 0 (m_timestamp_ms m).

(** [prometheus.ValueType]. *)
Inductive ValueType := CounterValue | GaugeValue | UntypedValue.

(** ** Files *)

Record FileInfo := {
  fi_name : string;
  fi_isdir : bool;
  fi_regular : bool;
  fi_modtime : Time
}.

(** ** Configuration (the command-line options) *)

Record Options := {
  optPromPath : string;
  optScanInterval : Duration;
  optMemoryMaxAge : Duration;
  optOldFilesAge : Duration;
  optOldFilesExternalCmd : string
}.

(** ** The world of one pass

    What the pass reads from outside.  The answers of the file system
    and of the parser are those of the moment the pass asks; a path is
    asked about once per call site. *)

Record World := {
  (** successive readings of [time.Now()] *)
  w_now : nat -> Time;
  (** [os.Stat]; [None] is an error *)
  w_stat : string -> option FileInfo;
  (** [os.ReadDir], each entry with the result of its [Info()] *)
  w_readdir : string -> option (list (option FileInfo));
  (** [parseMF]: the families in the order the [range] visits them *)
  w_parseMF : string -> option (list (string * MetricFamily));
  (** [cmd.Output()] of [sh -c cmdString]: standard output and whether it succeeded *)
  w_output : string -> string * bool
}.

(** ** Events *)

(** The arguments of one [collector.Add] call. *)
Record AddCall := {
  a_name : string;
  a_labels : gmap string string;
  a_type : ValueType;
  a_value : float64;
  a_time : Time;
  a_extra : Z;
  a_help : string
}.

Inductive LogMsg :=
| LogStarted
| LogDebugMode
| LogFound (n : Z)
| LogProcessing (i n : Z) (f : string)
| LogErrorStat (i n : Z) (f : string)
| LogOldFile (i n : Z) (f : string)
| LogRunning (i n : Z) (cmdString : string)
| LogErrorRunning (i n : Z) (cmdString : string)
| LogErrorParsing (i n : Z) (f : string)
| LogDataPoints (i n cnt : Z)
| LogMetricName (name : string)
| LogMetricType (t : MetricType)
| LogMetricHelp (help : string)
| LogMetricValue (v : float64)
| LogTimestamp (ts : Z)
| LogTimestampNow (ts : Z)
| LogLabelName (s : string)
| LogLabelValue (s : string)
| LogSeparator.

Inductive Event :=
| EvLog (msg : LogMsg)
| EvPrint (s : string)
| EvExec (cmdString : string)
| EvClear
| EvAdd (a : AddCall)
| EvSleep (d : Duration).

(** ** The monad of the scan job

    A computation starts at a clock position and returns its result, the
    clock position it ends at and the events it emitted. *)
Definition M (A : Type) : Type := nat -> A * nat * list Event.

Definition ret {A} (a : A) : M A := fun k => (a, k, []).

Definition bind {A B} (c : M A) (f : A -> M B) : M B :=
  fun k =>
    let '(a, k1, tr1) := c k in
    let '(b, k2, tr2) := f a k1 in
    (b, k2, tr1 ++ tr2).

Notation "'let*' x ':=' c 'in' k" := (bind c (fun x => k))
  (at level 10, x pattern, c at level 100, k at level 200,
   format "'[v' 'let*'  x  ':='  c  'in' '/' k ']'").
Notation "'run' c 'in' k" := (bind c (fun _ => k))
  (at level 10, c at level 100, k at level 200,
   format "'[v' 'run'  c  'in' '/' k ']'").

Definition emit (e : Event) : M unit := fun k => (tt, k, [e]).
Definition log (msg : LogMsg) : M unit := emit (EvLog msg).
Definition when (b : bool) (c : M unit) : M unit := if b then c else ret tt.
(** [time.Now()] *)
Definition time_Now (w : World) : M Time := fun k => (w_now w k, S k, []).

Definition result {A} (x : A * nat * list Event) : A := fst (fst x).
Definition clock {A} (x : A * nat * list Event) : nat := snd (fst x).
Definition trace {A} (x : A * nat * list Event) : list Event := snd x.

(** ** The scan job *)

Definition nl : string := String (ascii_of_nat 10) EmptyString.

(** [isOlderThanTwoHours] *)
Definition isOlderThanTwoHours (w : World) (t : Time) : M bool :=
  let* now := time_Now w in
  ret (2 * Hour <? TimeSub now t).

(** The [switch] on the family's type (lines 186-202): the value type
    and the value handed on, or [None] where the code leaves the loop
    over the family's metrics ([break out]). *)
Definition switch_type (t : MetricType) (m : Metric) : option (ValueType * float64) :=
  match t with
  | MetricType_GAUGE => Some (GaugeValue, GetValue (m_gauge m))
  | MetricType_COUNTER => Some (CounterValue, GetValue (m_counter m))
  | MetricType_SUMMARY => None
  | MetricType_UNTYPED => Some (UntypedValue, GetValue (m_untyped m))
  | MetricType_HISTOGRAM => None
  | _ => None
  end.

(** Lines 218-224: the metric's labels are written into the map
    [labels], which the caller owns. *)
Fixpoint label_loop (debugging : bool) (ls : list LabelPair)
    (labels : gmap string string) : M (gmap string string) :=
  match ls with
  | [] => ret labels
  | label :: ls' =>
      run when debugging
            (run log (LogLabelName (lp_name label)) in
             log (LogLabelValue (lp_value label))) in
      label_loop debugging ls' (<[lp_name label := lp_value label]> labels)
  end.

(** Lines 204-215: the timestamp of the point, in milliseconds. *)
Definition handle_timestamp (w : World) (debugging : bool) (timestamp : Z) : M Z :=
  if timestamp <=? 0 then
    let* now := time_Now w in
    let timestamp := Z.quot (UnixNano now) 1000000 in
    run when debugging (log (LogTimestampNow timestamp)) in
    ret timestamp
  else ret timestamp.

(** Lines 186-232: the body of the loop over the metrics of one
    family, for the metric [m].  The map [labels] lives outside the
    loop: it comes in as the earlier turns left it and goes out as this
    turn leaves it.  [None] is [break out]. *)
Definition metric_body (w : World) (debugging : bool) (name : string) (mf : MetricFamily)
    (m : Metric) (labels : gmap string string) : M (option (gmap string string)) :=
  match switch_type (mf_type mf) m with
  | None => ret None
  | Some (metric_type, metric_value) =>
      let timestamp := GetTimestampMs m in
      run when debugging
            (run log (LogMetricValue metric_value) in
             log (LogTimestamp timestamp)) in
      let* timestamp := handle_timestamp w debugging timestamp in
      let* labels := label_loop debugging (m_label m) labels in
      run emit (EvAdd {| a_name := name; a_labels := labels;
                         a_type := metric_type; a_value := metric_value;
                         a_time := Unix0 (wrap64 (timestamp * Millisecond));
                         a_extra := 0; a_help := mf_help mf |}) in
      run when debugging (log LogSeparator) in
      ret (Some labels)
  end.

(** Lines 185-233: the loop over the metrics of one family; [cnt]
    counts the points added ([cnt++], line 228). *)
Fixpoint metric_loop (w : World) (debugging : bool) (name : string) (mf : MetricFamily)
    (ms : list Metric) (labels : gmap string string) (cnt : Z)
    : M (gmap string string * Z) :=
  match ms with
  | [] => ret (labels, cnt)
  | m :: ms' =>
      let* r := metric_body w debugging name mf m labels in
      match r with
      | None => ret (labels, cnt)
      | Some labels' => metric_loop w debugging name mf ms' labels' (cnt + 1)
      end
  end.

(** Lines 174-234: the loop over the families of one file; every family
    starts with a map of its own, [make(map[string]string)]. *)
Fixpoint family_loop (w : World) (debugging : bool)
    (mfs : list (string * MetricFamily)) (cnt : Z) : M Z :=
  match mfs with
  | [] => ret cnt
  | (name, mf) :: rest =>
      run when debugging
            (run log (LogMetricName name) in
             run log (LogMetricType (mf_type mf)) in
             log (LogMetricHelp (mf_help mf))) in
      let* r := metric_loop w debugging name mf (mf_metric mf) ∅ cnt in
      family_loop w debugging rest (snd r)
  end.

(** Lines 152-163: an old file. *)
Definition old_file (opts : Options) (w : World) (n i : Z) (f : string) : M unit :=
  run log (LogOldFile (i + 1) n f) in
  let cmdString := ReplaceAll_placeholder (optOldFilesExternalCmd opts) f in
  run log (LogRunning (i + 1) n cmdString) in
  run emit (EvExec cmdString) in
  run when (negb (snd (w_output w cmdString)))
        (log (LogErrorRunning (i + 1) n cmdString)) in
  emit (EvPrint ("output:" +:+ nl +:+ "<<<" +:+ nl +:+ fst (w_output w cmdString) +:+ ">>>")).

(** Lines 142-237: the body of the loop over the files. *)
Definition process_file (opts : Options) (w : World) (debugging : bool)
    (n i : Z) (f : string) : M unit :=
  let printIt := debugging || (i <? 5) || (n - 5 <=? i) in
  run when printIt (log (LogProcessing (i + 1) n f)) in
  match w_stat w f with
  | None => log (LogErrorStat (i + 1) n f)
  | Some fileinfo =>
      let* now := time_Now w in
      if After now (TimeAdd (fi_modtime fileinfo) (optOldFilesAge opts)) then
        old_file opts w n i f
      else
        match w_parseMF w f with
        | None => log (LogErrorParsing (i + 1) n f)
        | Some mfs =>
            let* cnt := family_loop w debugging mfs 0 in
            when printIt (log (LogDataPoints (i + 1) n cnt))
        end
  end.

Fixpoint files_loop (opts : Options) (w : World) (debugging : bool)
    (n i : Z) (files : list string) : M unit :=
  match files with
  | [] => ret tt
  | f :: rest =>
      run process_file opts w debugging n i f in
      files_loop opts w debugging n (i + 1) rest
  end.

(** Lines 115-127: the regular files named [*.prom] of a directory. *)
Fixpoint entries_loop (filepath : string) (entries : list (option FileInfo))
    (files : list string) : list string :=
  match entries with
  | [] => files
  | None :: rest => entries_loop filepath rest files
  | Some fi :: rest =>
      if fi_isdir fi then entries_loop filepath rest files
      else if fi_regular fi && HasSuffix (fi_name fi) ".prom"
      then entries_loop filepath rest (files ++ [filepath +:+ "/" +:+ fi_name fi])
      else entries_loop filepath rest files
  end.

(** Lines 108-130; [None] where [os.ReadDir] fails. *)
Definition collect_files (w : World) (filepath : string) (fileinfo : FileInfo)
    : option (list string) :=
  if fi_isdir fileinfo then
    match w_readdir w filepath with
    | None => None
    | Some entries => Some (entries_loop filepath entries [])
    end
  else Some [filepath].

(** Lines 94-102. *)
Definition debug_switch (w : World) (filepath : string) : M bool :=
  match w_stat w (filepath +:+ "/debug_tfe") with
  | Some fs =>
      let* old := isOlderThanTwoHours w (fi_modtime fs) in
      ret (negb old)
  | None => ret false
  end.

(** How one turn of the [for] loop ends: at its [break], or at the end
    of its body. *)
Inductive LoopCtl := Break | Next.

(** Lines 84-239: one turn of the loop. *)
Definition scan_pass (opts : Options) (w : World) : M LoopCtl :=
  let filepath := optPromPath opts in
  match w_stat w filepath with
  | None => ret Break
  | Some fileinfo =>
      let* debugging := debug_switch w filepath in
      run when debugging (log LogDebugMode) in
      match collect_files w filepath fileinfo with
      | None => ret Break
      | Some files =>
          let n := Z.of_nat (length files) in
          run log (LogFound n) in
          run emit EvClear in
          run files_loop opts w debugging n 0 files in
          run emit (EvSleep (optScanInterval opts)) in
          ret Next
      end
  end.

(** The state of the background job after a number of turns. *)
Inductive JobStatus := Looping | Ended.

(** The [for] loop, for at most [fuel] turns; turn [k] runs in the
    world [worlds k], its clock starting at its first reading. *)
Fixpoint scan_loop (opts : Options) (worlds : nat -> World) (k fuel : nat)
    : JobStatus * list Event :=
  match fuel with
  | O => (Looping, [])
  | S fuel' =>
      let r := scan_pass opts (worlds k) O in
      match result r with
      | Break => (Ended, trace r)
      | Next =>
          let r' := scan_loop opts worlds (S k) fuel' in
          (fst r', trace r ++ snd r')
      end
  end.

(** Lines 81-243: the background job. *)
Definition scan_job (opts : Options) (worlds : nat -> World) (fuel : nat)
    : JobStatus * list Event :=
  let r := scan_loop opts worlds O fuel in
  (fst r, EvLog LogStarted :: snd r).

(** ** The collector

    Modelled from the spec: the time-aware collector
    ([newTimeAwareCollector], [Add], [Clear], [Collect]) is code of the
    repository that is not part of [main.go].  Following the spec's
    Metric Store, it is a mapping from metric identity (name and label
    set) to the latest point put under that identity; a put inserts or
    overwrites, keyed by identity; a snapshot returns the points [p]
    with [now - timestamp p ≤ maxAge].  A point is a value: it holds
    the label set as the map passed to [Add] is at the call, whatever
    the caller writes into that map later.  [Clear] makes the collector
    empty ([main.go], line 134). *)

Record Point := {
  p_name : string;
  p_labels : gmap string string;
  p_kind : ValueType;
  p_value : float64;
  p_timestamp : Time;
  p_help : string
}.

Definition Identity : Type := string * gmap string string.

Definition identity (p : Point) : Identity := (p_name p, p_labels p).

Definition point_of (a : AddCall) : Point :=
  {| p_name := a_name a; p_labels := a_labels a; p_kind := a_type a;
     p_value := a_value a; p_timestamp := a_time a; p_help := a_help a |}.

Definition collector_Add (a : AddCall) (c : gmap Identity Point) : gmap Identity Point :=
  <[identity (point_of a) := point_of a]> c.

Definition collector_Clear (c : gmap Identity Point) : gmap Identity Point := ∅.

(** The points of the collector, in the order a read visits them. *)
Definition points (c : gmap Identity Point) : list Point := (map_to_list c).*2.

Definition visible (maxAge : Duration) (now : Time) (p : Point) : Prop :=
  TimeSub now (p_timestamp p) <= maxAge.

#[global] Instance visible_dec maxAge now p : Decision (visible maxAge now p).
Proof. unfold visible. apply _. Defined.

Definition Snapshot (maxAge : Duration) (now : Time) (c : gmap Identity Point) : list Point :=
  filter (visible maxAge now) (points c).

(** What an event of the scan job does to the collector. *)
Definition apply_event (c : gmap Identity Point) (e : Event) : gmap Identity Point :=
  match e with
  | EvClear => collector_Clear c
  | EvAdd a => collector_Add a c
  | _ => c
  end.

(** The collector after the events [tr], in program order, from [c]. *)
Definition replay (tr : list Event) (c : gmap Identity Point) : gmap Identity Point :=
  fold_left apply_event tr c.

(** The [collector.Add] calls of a trace. *)
Fixpoint adds (tr : list Event) : list AddCall :=
  match tr with
  | [] => []
  | EvAdd a :: tr' => a :: adds tr'
  | _ :: tr' => adds tr'
  end.

(** The external commands of a trace. *)
Fixpoint execs (tr : list Event) : list string :=
  match tr with
  | [] => []
  | EvExec c :: tr' => c :: execs tr'
  | _ :: tr' => execs tr'
  end.

(** The collector calls of a trace: what is left when the log lines,
    the external commands and the sleep are taken out. *)
Definition is_collector_call (e : Event) : bool :=
  match e with
  | EvClear | EvAdd _ => true
  | _ => false
  end.

Definition collector_calls (tr : list Event) : list Event :=
  List.filter is_collector_call tr.

(** ** Reading the traces *)

(** The labels a turn of the metric loop leaves in the map: the writes
    of lines 218-224, without the log lines. *)
Definition write_labels (ls : list LabelPair) (labels : gmap string string)
    : gmap string string :=
  fold_left (fun acc label => <[lp_name label := lp_value label]> acc) ls labels.

(** The label set a metric carries in the input. *)
Definition labels_of (m : Metric) : gmap string string := write_labels (m_label m) ∅.

(** The label sets of the calls made for the metrics [ms] of one
    family, when the map holds [labels] before the first of them. *)
Fixpoint accumulated_labels (ms : list Metric) (labels : gmap string string)
    : list (gmap string string) :=
  match ms with
  | [] => []
  | m :: ms' =>
      write_labels (m_label m) labels :: accumulated_labels ms' (write_labels (m_label m) labels)
  end.

(** The metric [m] without its timestamp. *)
Definition clear_timestamp (m : Metric) : Metric :=
  {| m_label := m_label m; m_gauge := m_gauge m; m_counter := m_counter m;
     m_untyped := m_untyped m; m_timestamp_ms := None |}.

(** The reading [now] of the wall clock, at the millisecond. *)
Definition at_millisecond (now : Time) : Time := Z.quot now 1000000 * Millisecond.

(** The types the [switch] hands on. *)
Definition supported (t : MetricType) : bool :=
  match t with
  | MetricType_GAUGE | MetricType_COUNTER | MetricType_UNTYPED => true
  | _ => false
  end.

(** A trace of log lines and printed output only. *)
Definition is_output (e : Event) : bool :=
  match e with
  | EvLog _ | EvPrint _ => true
  | _ => false
  end.

Definition output_only (tr : list Event) : Prop := Forall (fun e => is_output e = true) tr.

(** The timestamp, in milliseconds, of the point added for a metric
    whose getter returns [ts], when the clock stands at [k]. *)
Definition stamp (w : World) (k : nat) (ts : Z) : Z :=
  if ts <=? 0 then Z.quot (UnixNano (w_now w k)) 1000000 else ts.

(** The call made for the metric [m] of the family [name], [mf]. *)
Definition add_call (w : World) (k : nat) (name : string) (mf : MetricFamily) (m : Metric)
    (labels : gmap string string) (mt : ValueType) (v : float64) : AddCall :=
  {| a_name := name; a_labels := write_labels (m_label m) labels;
     a_type := mt; a_value := v;
     a_time := Unix0 (wrap64 (stamp w k (GetTimestampMs m) * Millisecond));
     a_extra := 0; a_help := mf_help mf |}.

(** Where a [collector.Add] call comes from: a metric of the family
    [name], [mf], whose type the [switch] hands on. *)
Definition from_metrics (name : string) (mf : MetricFamily) (ms : list Metric)
    (a : AddCall) : Prop :=
  a_name a = name /\ a_help a = mf_help mf /\
  exists m, m ∈ ms /\ switch_type (mf_type mf) m = Some (a_type a, a_value a).

Definition from_family (name : string) (mf : MetricFamily) (a : AddCall) : Prop :=
  supported (mf_type mf) = true /\ from_metrics name mf (mf_metric mf) a.

Definition from_families (mfs : list (string * MetricFamily)) (a : AddCall) : Prop :=
  exists name mf, (name, mf) ∈ mfs /\ from_family name mf a.

Definition from_file (w : World) (f : string) (a : AddCall) : Prop :=
  exists mfs, w_parseMF w f = Some mfs /\ from_families mfs a.

Definition from_files (w : World) (files : list string) (a : AddCall) : Prop :=
  exists f, f ∈ files /\ from_file w f a.

(** The events of the body of a pass: no [Clear], no sleep, and every
    [Add] call satisfies [P]. *)
Definition body_event (P : AddCall -> Prop) (e : Event) : Prop :=
  match e with
  | EvAdd a => P a
  | EvClear | EvSleep _ => False
  | _ => True
  end.

(** The collector that holds the points of the calls [calls], made in
    this order on the collector [c]. *)
Definition fill (calls : list AddCall) (c : gmap Identity Point) : gmap Identity Point :=
  fold_left (fun c a => collector_Add a c) calls c.

(** What a scrape that comes after the first [j] events of a pass
    reads, when the pass started on the collector [c0]: the collector
    calls of the scan job and the read of a scrape exclude one another,
    so a scrape reads the collector between two events of the pass. *)
Definition observed (opts : Options) (w : World) (c0 : gmap Identity Point) (j : nat)
    : gmap Identity Point :=
  replay (take j (trace (scan_pass opts w O))) c0.

(** Every point sits under its own identity. *)
Definition well_keyed (c : gmap Identity Point) : Prop :=
  forall id p, c !! id = Some p -> id = identity p.

(** ** What a computation does, log lines apart *)

(** The events of a trace that are not log lines or printed output:
    the collector calls, the external commands and the sleep, in
    program order. *)
Definition effects (tr : list Event) : list Event :=
  List.filter (fun e => negb (is_output e)) tr.

(** Two runs that return the same result, leave the clock at the same
    position and have the same effects: they differ in their log lines
    at most. *)
Definition same_effects {A} (x y : A * nat * list Event) : Prop :=
  result x = result y /\ clock x = clock y /\ effects (trace x) = effects (trace y).

(** A computation that only logs: it returns nothing, does not read the
    clock and emits output only. *)
Definition logging (c : M unit) : Prop :=
  forall k, clock (c k) = k /\ output_only (trace (c k)).

(** The events of the loops over the families and metrics of a file:
    [collector.Add] calls and the log lines about families, metrics and
    labels. *)
Definition is_metric_event (e : Event) : bool :=
  match e with
  | EvAdd _ => true
  | EvLog (LogMetricName _ | LogMetricType _ | LogMetricHelp _ | LogMetricValue _
          | LogTimestamp _ | LogTimestampNow _ | LogLabelName _ | LogLabelValue _
          | LogSeparator) => true
  | _ => false
  end.

Definition metric_events {A} (c : M A) : Prop :=
  forall k, Forall (fun e => is_metric_event e = true) (trace (c k)).



(** ** The points of a decoded file

    What the families of a file are to give: for every family of type
    Gauge, Counter or Untyped, in the order the families are visited, one
    point per metric, in the order of the metrics, with the name and the
    help text of the family, the kind of its type and the value of the
    metric's field for that type (0 when the field is nil). *)
Definition kind_of (t : MetricType) : option ValueType :=
  match t with
  | MetricType_GAUGE => Some GaugeValue
  | MetricType_COUNTER => Some CounterValue
  | MetricType_UNTYPED => Some UntypedValue
  | _ => None
  end.

Definition value_of (t : MetricType) (m : Metric) : float64 :=
  match t with
  | MetricType_GAUGE => GetValue (m_gauge m)
  | MetricType_COUNTER => GetValue (m_counter m)
  | MetricType_UNTYPED => GetValue (m_untyped m)
  | _ => 0
  end.

Definition family_points (nmf : string * MetricFamily)
    : list (string * ValueType * float64 * string) :=
  match kind_of (mf_type (snd nmf)) with
  | Some vt =>
      map (fun m => (fst nmf, vt, value_of (mf_type (snd nmf)) m, mf_help (snd nmf)))
          (mf_metric (snd nmf))
  | None => []
  end.

(** Name, kind, value and help text of a [collector.Add] call. *)
Definition call_data (a : AddCall) : string * ValueType * float64 * string :=
  (a_name a, a_type a, a_value a, a_help a).

(** The metrics of the family have the same label names. *)
Definition uniform_labels (mf : MetricFamily) : Prop :=
  forall m m', m ∈ mf_metric mf -> m' ∈ mf_metric mf ->
    dom (labels_of m) = dom (labels_of m').

(** The label sets of the calls made for a family: the map starts
    empty for every family. *)
Definition family_labels (nmf : string * MetricFamily) : list (gmap string string) :=
  if supported (mf_type (snd nmf)) then accumulated_labels (mf_metric (snd nmf)) ∅ else [].

(** ** Directory entries *)

(** The path under which an entry of the directory [filepath] is put
    on the list of files, if it is: the entry's [Info()] succeeds, it is
    not a directory, it is a regular file and its name ends in [.prom]. *)
Definition prom_file (filepath : string) (entry : option FileInfo) : option string :=
  match entry with
  | Some fi =>
      if negb (fi_isdir fi) && fi_regular fi && HasSuffix (fi_name fi) ".prom"
      then Some (filepath +:+ "/" +:+ fi_name fi)
      else None
  | None => None
  end.

(** ** Command templates *)

(** The string has no opening brace. *)
Fixpoint brace_free (s : string) : bool :=
  match s with
  | EmptyString => true
  | String c rest => negb (Ascii.eqb c "{") && brace_free rest
  end.

(** ** Clears and sleeps *)

(** The sleeps of a trace. *)
Fixpoint sleeps (tr : list Event) : list Duration :=
  match tr with
  | [] => []
  | EvSleep d :: tr' => d :: sleeps tr'
  | _ :: tr' => sleeps tr'
  end.

(** The number of [collector.Clear] calls of a trace. *)
Fixpoint clears (tr : list Event) : nat :=
  match tr with
  | [] => O
  | EvClear :: tr' => S (clears tr')
  | _ :: tr' => clears tr'
  end.

(** ** Worlds that differ in the parser *)

(** The world [w] with the parser [p] in the place of its own. *)
Definition with_parseMF (w : World)
    (p : string -> option (list (string * MetricFamily))) : World :=
  {| w_now := w_now w; w_stat := w_stat w; w_readdir := w_readdir w;
     w_parseMF := p; w_output := w_output w |}.

(** [join sep pieces]: the pieces with [sep] between them; a command
    template whose placeholders stand between the pieces is
    [join "{}" pieces]. *)
Fixpoint join (sep : string) (pieces : list string) : string :=
  match pieces with
  | [] => EmptyString
  | p :: rest =>
      match rest with
      | [] => p
      | _ :: _ => p +:+ sep +:+ join sep rest
      end
  end.

(** ** A small installation

    One file, [/m.prom], written at [ex_t0]; the clock of a pass starts
    at [ex_t0] plus one hour and advances by a microsecond per reading. *)

Definition ex_t0 : Time := 1700000000000000000.

Definition ex_opts : Options :=
  {| optPromPath := "/m.prom"; optScanInterval := 30 * 1000000000;
     optMemoryMaxAge := 25 * Hour; optOldFilesAge := 6 * Hour;
     optOldFilesExternalCmd := "ls -l {}" |}.

Definition ex_file : FileInfo :=
  {| fi_name := "m.prom"; fi_isdir := false; fi_regular := true; fi_modtime := ex_t0 |}.

(** The world in which [/m.prom] decodes to [mfs] ([None]: it does not
    decode). *)
Definition ex_world (mfs : option (list (string * MetricFamily))) : World :=
  {| w_now := fun k => ex_t0 + Hour + Z.of_nat k * 1000;
     w_stat := fun path => if String.eqb path "/m.prom" then Some ex_file else None;
     w_readdir := fun _ => None;
     w_parseMF := fun _ => mfs;
     w_output := fun _ => (EmptyString, true) |}.

(** The world in which the configured path is not there. *)
Definition ex_world_missing : World :=
  {| w_now := fun k => ex_t0 + Hour + Z.of_nat k * 1000;
     w_stat := fun _ => None;
     w_readdir := fun _ => None;
     w_parseMF := fun _ => None;
     w_output := fun _ => (EmptyString, true) |}.

Definition ex_metric (labels : list LabelPair) (v : float64) (ts : option Z) : Metric :=
  {| m_label := labels; m_gauge := Some v; m_counter := Some v; m_untyped := Some v;
     m_timestamp_ms := ts |}.

Definition ex_family (t : MetricType) (ms : list Metric) : MetricFamily :=
  {| mf_help := "help"; mf_type := t; mf_metric := ms |}.

(** Pass N reads [x = 1]; pass N+1 reads [x = 2] and [y = 5]. *)
Definition ex_world_N : World :=
  ex_world (Some [("x", ex_family MetricType_GAUGE [ex_metric [] 1 None])]).

Definition ex_world_N1 : World :=
  ex_world (Some [("x", ex_family MetricType_GAUGE [ex_metric [] 2 None]);
                  ("y", ex_family MetricType_COUNTER [ex_metric [] 5 None])]).

Definition ex_collector_N : gmap Identity Point :=
  replay (trace (scan_pass ex_opts ex_world_N O)) ∅.

(** The configured path is missing at the first pass and is there from
    the second pass on. *)
Definition ex_worlds_late (pass : nat) : World :=
  match pass with
  | O => ex_world_missing
  | S _ => ex_world_N
  end.

(** A family of two metrics with different label names, as in
    [x{a="1"} 1] followed by [x{b="2"} 2]. *)
Definition ex_metric_a : Metric := ex_metric [{| lp_name := "a"; lp_value := "1" |}] 1 None.
Definition ex_metric_b : Metric := ex_metric [{| lp_name := "b"; lp_value := "2" |}] 2 None.

Definition ex_world_labels : World :=
  ex_world (Some [("x", ex_family MetricType_GAUGE [ex_metric_a; ex_metric_b])]).

(** Files count as old after half an hour: [/m.prom], written an hour
    before the pass, is old. *)
Definition ex_opts_old : Options :=
  {| optPromPath := "/m.prom"; optScanInterval := 30 * 1000000000;
     optMemoryMaxAge := 25 * Hour; optOldFilesAge := 1800 * 1000000000;
     optOldFilesExternalCmd := "ls -l {}" |}.

(** Two calls for the same identity, with the values 1 and 2. *)
Definition ex_call (v : float64) : AddCall :=
  {| a_name := "x"; a_labels := {["job" := "a"]}; a_type := GaugeValue; a_value := v;
     a_time := ex_t0; a_extra := 0; a_help := "help" |}.

(** A family of two metrics with the same label name, as in
    [z{a="1"} 1] followed by [z{a="2"} 2]. *)
Definition ex_family_uniform : MetricFamily :=
  ex_family MetricType_UNTYPED
    [ex_metric [{| lp_name := "a"; lp_value := "1" |}] 1 None;
     ex_metric [{| lp_name := "a"; lp_value := "2" |}] 2 None].

(** Old files after half an hour, and a command without placeholder. *)
Definition ex_opts_plain : Options :=
  {| optPromPath := "/m.prom"; optScanInterval := 30 * 1000000000;
     optMemoryMaxAge := 25 * Hour; optOldFilesAge := 1800 * 1000000000;
     optOldFilesExternalCmd := "date" |}.

(** Old files after half an hour, and a command with two
    placeholders. *)
Definition ex_opts_backup : Options :=
  {| optPromPath := "/m.prom"; optScanInterval := 30 * 1000000000;
     optMemoryMaxAge := 25 * Hour; optOldFilesAge := 1800 * 1000000000;
     optOldFilesExternalCmd := "cp {} {}.bak" |}.

(** Three current files: [/d/a.prom] decodes to [x = 1], [/d/b.prom]
    does not decode, [/d/c.prom] decodes to [y = 5]. *)
Definition ex_world_three : World :=
  {| w_now := fun k => ex_t0 + Hour + Z.of_nat k * 1000;
     w_stat := fun path =>
       if String.eqb path "/d/a.prom" || String.eqb path "/d/b.prom"
          || String.eqb path "/d/c.prom"
       then Some ex_file else None;
     w_readdir := fun _ => None;
     w_parseMF := fun path =>
       if String.eqb path "/d/a.prom"
       then Some [("x", ex_family MetricType_GAUGE [ex_metric [] 1 None])]
       else if String.eqb path "/d/c.prom"
       then Some [("y", ex_family MetricType_COUNTER [ex_metric [] 5 None])]
       else None;
     w_output := fun _ => (EmptyString, true) |}.

(** ** The claims, as they are stated *)

(** Atomic visibility, for the pass in the world [w] that starts on the
    collector [c0]: whenever a scrape comes, its snapshot is that of the
    previous pass or that of the new pass as a whole. *)
Definition atomic_visibility (opts : Options) (w : World) (c0 : gmap Identity Point) : Prop :=
  forall (j : nat) (maxAge : Duration) (now : Time),
    Snapshot maxAge now (observed opts w c0 j) = Snapshot maxAge now c0 \/
    Snapshot maxAge now (observed opts w c0 j) =
      Snapshot maxAge now (replay (trace (scan_pass opts w O)) c0).

(** The timestamp of a point, for the metric [m] it was added for at
    the wall-clock reading [now]: the wall-clock time when the metric
    carries no timestamp, the metric's timestamp when it carries one. *)
Definition timestamp_as_stated (now : Time) (m : Metric) (a : AddCall) : Prop :=
  match m_timestamp_ms m with
  | None => a_time a = at_millisecond now
  | Some ts => a_time a = Unix0 (ts * Millisecond)
  end.

(** * Properties *)

(** ** Traces *)

Lemma adds_app tr1 tr2 : adds (tr1 ++ tr2) = adds tr1 ++ adds tr2.
Proof.
  induction tr1 as [|e tr1 IH]; [reflexivity|].
  destruct e; simpl; rewrite IH; reflexivity.
Qed.

Lemma execs_app tr1 tr2 : execs (tr1 ++ tr2) = execs tr1 ++ execs tr2.
Proof.
  induction tr1 as [|e tr1 IH]; [reflexivity|].
  destruct e; simpl; rewrite IH; reflexivity.
Qed.

Lemma collector_calls_app tr1 tr2 :
  collector_calls (tr1 ++ tr2) = collector_calls tr1 ++ collector_calls tr2.
Proof. unfold collector_calls. apply List.filter_app. Qed.

Lemma replay_app tr1 tr2 c : replay (tr1 ++ tr2) c = replay tr2 (replay tr1 c).
Proof. unfold replay. apply fold_left_app. Qed.

Lemma output_only_app tr1 tr2 :
  output_only tr1 -> output_only tr2 -> output_only (tr1 ++ tr2).
Proof. unfold output_only. intros H1 H2. apply Forall_app; split; assumption. Qed.

Lemma output_only_adds tr : output_only tr -> adds tr = [].
Proof.
  induction 1 as [|e tr He _ IH]; [reflexivity|].
  destruct e; simpl in *; try discriminate; exact IH.
Qed.

Lemma output_only_execs tr : output_only tr -> execs tr = [].
Proof.
  induction 1 as [|e tr He _ IH]; [reflexivity|].
  destruct e; simpl in *; try discriminate; exact IH.
Qed.

Lemma output_only_calls tr : output_only tr -> collector_calls tr = [].
Proof.
  induction 1 as [|e tr He _ IH]; [reflexivity|].
  destruct e; simpl in *; try discriminate; exact IH.
Qed.

Lemma output_only_replay tr c : output_only tr -> replay tr c = c.
Proof.
  intros H. revert c. induction H as [|e tr He _ IH]; intros c; [reflexivity|].
  destruct e; simpl in *; try discriminate; apply IH.
Qed.

(** The collector depends on the collector calls of a trace only. *)
Lemma replay_collector_calls tr c : replay (collector_calls tr) c = replay tr c.
Proof.
  revert c. induction tr as [|e tr IH]; intros c; [reflexivity|].
  destruct e; simpl; apply IH.
Qed.

(** ** The monad *)

Lemma bind_eq {A B} (c : M A) (f : A -> M B) k :
  bind c f k =
  (result (f (result (c k)) (clock (c k))),
   clock (f (result (c k)) (clock (c k))),
   trace (c k) ++ trace (f (result (c k)) (clock (c k)))).
Proof.
  unfold bind, result, clock, trace.
  destruct (c k) as [[a k1] tr1]; simpl.
  destruct (f a k1) as [[b k2] tr2]; reflexivity.
Qed.

Lemma result_bind {A B} (c : M A) (f : A -> M B) k :
  result (bind c f k) = result (f (result (c k)) (clock (c k))).
Proof. rewrite bind_eq. reflexivity. Qed.

Lemma clock_bind {A B} (c : M A) (f : A -> M B) k :
  clock (bind c f k) = clock (f (result (c k)) (clock (c k))).
Proof. rewrite bind_eq. reflexivity. Qed.

Lemma trace_bind {A B} (c : M A) (f : A -> M B) k :
  trace (bind c f k) = trace (c k) ++ trace (f (result (c k)) (clock (c k))).
Proof. rewrite bind_eq. reflexivity. Qed.

Ltac mstep := rewrite ?result_bind, ?clock_bind, ?trace_bind.

(** ** The label loop *)

Lemma label_loop_spec d ls labels k :
  result (label_loop d ls labels k) = write_labels ls labels /\
  clock (label_loop d ls labels k) = k /\
  output_only (trace (label_loop d ls labels k)).
Proof.
  revert labels k. induction ls as [|l ls IH]; intros labels k.
  - repeat split. constructor.
  - simpl label_loop. mstep.
    assert (Hk : clock (when d (run log (LogLabelName (lp_name l)) in
                                log (LogLabelValue (lp_value l))) k) = k)
      by (destruct d; reflexivity).
    rewrite Hk.
    destruct (IH (<[lp_name l := lp_value l]> labels) k) as (Hr & Hc & Ht).
    repeat split; [exact Hr | exact Hc |].
    apply output_only_app; [|exact Ht].
    destruct d; simpl; repeat constructor.
Qed.

(** ** The timestamp *)

Lemma handle_timestamp_spec w d ts k :
  result (handle_timestamp w d ts k) =
    (if ts <=? 0 then Z.quot (UnixNano (w_now w k)) 1000000 else ts) /\
  clock (handle_timestamp w d ts k) = (if ts <=? 0 then S k else k) /\
  output_only (trace (handle_timestamp w d ts k)).
Proof.
  unfold handle_timestamp. destruct (ts <=? 0).
  - destruct d; simpl; repeat split; repeat constructor.
  - repeat split. constructor.
Qed.

(** ** One metric *)

Lemma metric_body_supported w d name mf m labels k mt v :
  switch_type (mf_type mf) m = Some (mt, v) ->
  exists tr1 tr2,
    metric_body w d name mf m labels k =
      (Some (write_labels (m_label m) labels),
       (if GetTimestampMs m <=? 0 then S k else k),
       tr1 ++ EvAdd (add_call w k name mf m labels mt v) :: tr2) /\
    output_only tr1 /\ output_only tr2.
Proof.
  intros Hsw. unfold metric_body. rewrite Hsw.
  set (pre := when d _).
  assert (Hpre : clock (pre k) = k /\ output_only (trace (pre k))).
  { subst pre. destruct d; simpl; repeat split; repeat constructor. }
  destruct Hpre as [Hpk Hpt].
  destruct (handle_timestamp_spec w d (GetTimestampMs m) k) as (Htr & Htk & Htt).
  set (k1 := clock (handle_timestamp w d (GetTimestampMs m) k)) in *.
  destruct (label_loop_spec d (m_label m) labels k1) as (Hlr & Hlk & Hlt).
  assert (Hsep : clock (when d (log LogSeparator) k1) = k1 /\
                 output_only (trace (when d (log LogSeparator) k1))).
  { destruct d; simpl; repeat split; repeat constructor. }
  destruct Hsep as [Hsk Hst].
  exists (trace (pre k) ++ trace (handle_timestamp w d (GetTimestampMs m) k)
          ++ trace (label_loop d (m_label m) labels k1)),
         (trace (when d (log LogSeparator) k1) ++ []).
  split; [|split].
  - rewrite !bind_eq. rewrite Hpk. fold k1. rewrite Hlr, Hlk, Htr.
    change (clock (emit _ k1)) with k1. rewrite Hsk.
    unfold add_call, stamp. rewrite <- Htk. fold k1.
    change (trace (emit ?e k1)) with [e].
    rewrite <- !app_assoc. reflexivity.
  - repeat apply output_only_app; assumption.
  - apply output_only_app; [assumption | constructor].
Qed.

Lemma adds_around tr1 a tr2 :
  output_only tr1 -> output_only tr2 ->
  adds (tr1 ++ EvAdd a :: tr2) = [a] /\
  collector_calls (tr1 ++ EvAdd a :: tr2) = [EvAdd a].
Proof.
  intros H1 H2. rewrite adds_app, collector_calls_app. simpl.
  rewrite (output_only_adds _ H1), (output_only_adds _ H2).
  rewrite (output_only_calls _ H1).
  change (collector_calls (EvAdd a :: tr2)) with (EvAdd a :: collector_calls tr2).
  rewrite (output_only_calls _ H2). split; reflexivity.
Qed.

Lemma metric_body_unsupported w d name mf m labels k :
  switch_type (mf_type mf) m = None ->
  metric_body w d name mf m labels k = (None, k, []).
Proof. intros Hsw. unfold metric_body. rewrite Hsw. reflexivity. Qed.

Lemma switch_type_supported t m :
  supported t = true -> exists mt v, switch_type t m = Some (mt, v).
Proof. destruct t; simpl; intros H; try discriminate; eauto. Qed.

Lemma switch_type_unsupported t m : supported t = false -> switch_type t m = None.
Proof. destruct t; simpl; intros H; try discriminate; reflexivity. Qed.

(** ** The events of the loops *)

Lemma output_only_body P tr : output_only tr -> Forall (body_event P) tr.
Proof.
  unfold output_only. apply List.Forall_impl. intros e He.
  destruct e; simpl in *; try discriminate; exact I.
Qed.

Lemma body_event_impl (P Q : AddCall -> Prop) tr :
  (forall a, P a -> Q a) -> Forall (body_event P) tr -> Forall (body_event Q) tr.
Proof.
  intros HPQ. apply List.Forall_impl. intros e He.
  destruct e; simpl in *; auto.
Qed.

Lemma body_event_adds P tr : Forall (body_event P) tr -> Forall P (adds tr).
Proof.
  induction 1 as [|e tr He _ IH]; [constructor|].
  destruct e; simpl in *; try exact IH. constructor; assumption.
Qed.

Lemma body_event_no_clear P tr : Forall (body_event P) tr -> EvClear ∉ tr.
Proof.
  intros H Hin. rewrite Forall_forall in H. exact (H _ Hin).
Qed.

Lemma metric_loop_unsupported w d name mf ms labels cnt k :
  supported (mf_type mf) = false ->
  metric_loop w d name mf ms labels cnt k = ((labels, cnt), k, []).
Proof.
  intros Hs. destruct ms as [|m ms]; [reflexivity|].
  simpl. unfold bind.
  rewrite metric_body_unsupported by (apply switch_type_unsupported; exact Hs).
  reflexivity.
Qed.

Lemma metric_loop_events w d name mf ms labels cnt k :
  Forall (body_event (from_metrics name mf ms))
         (trace (metric_loop w d name mf ms labels cnt k)).
Proof.
  revert labels cnt k. induction ms as [|m ms IH]; intros labels cnt k.
  - constructor.
  - simpl metric_loop. rewrite trace_bind.
    destruct (switch_type (mf_type mf) m) as [[mt v]|] eqn:Hsw.
    + destruct (metric_body_supported w d name mf m labels k mt v Hsw)
        as (tr1 & tr2 & Hb & H1 & H2).
      rewrite Hb. unfold result, clock, trace; simpl.
      rewrite <- app_assoc. apply Forall_app; split; [|apply Forall_app; split].
      * apply output_only_body; exact H1.
      * constructor; [|apply output_only_body; exact H2].
        simpl. split; [reflexivity|]. split; [reflexivity|].
        exists m. split; [apply list_elem_of_here | exact Hsw].
      * eapply body_event_impl; [|apply IH].
        intros a (Hn & Hh & m' & Hm' & Hs').
        split; [exact Hn|]. split; [exact Hh|].
        exists m'. split; [apply list_elem_of_further; exact Hm' | exact Hs'].
    + rewrite (metric_body_unsupported w d name mf m labels k Hsw).
      constructor.
Qed.

Lemma family_loop_events w d mfs cnt k :
  Forall (body_event (from_families mfs)) (trace (family_loop w d mfs cnt k)).
Proof.
  revert cnt k. induction mfs as [|[name mf] mfs IH]; intros cnt k.
  - constructor.
  - simpl family_loop. rewrite !trace_bind.
    apply Forall_app; split; [|apply Forall_app; split].
    + apply output_only_body. destruct d; simpl; repeat constructor.
    + destruct (supported (mf_type mf)) eqn:Hs.
      * eapply body_event_impl; [|apply metric_loop_events].
        intros a Ha. exists name, mf. split; [apply list_elem_of_here|].
        split; assumption.
      * rewrite metric_loop_unsupported by exact Hs. constructor.
    + eapply body_event_impl; [|apply IH].
      intros a (name' & mf' & Hin & Ha). exists name', mf'.
      split; [apply list_elem_of_further; exact Hin | exact Ha].
Qed.

(** ** One file *)

Lemma print_log_spec (b : bool) msg k :
  clock (when b (log msg) k) = k /\ output_only (trace (when b (log msg) k)).
Proof. destruct b; simpl; repeat split; repeat constructor. Qed.

Lemma old_file_spec opts w n i f k :
  clock (old_file opts w n i f k) = k /\
  adds (trace (old_file opts w n i f k)) = [] /\
  collector_calls (trace (old_file opts w n i f k)) = [] /\
  execs (trace (old_file opts w n i f k)) =
    [ReplaceAll_placeholder (optOldFilesExternalCmd opts) f].
Proof.
  unfold old_file.
  destruct (snd (w_output w (ReplaceAll_placeholder (optOldFilesExternalCmd opts) f)));
    repeat split.
Qed.

Lemma old_file_events P opts w n i f k :
  Forall (body_event P) (trace (old_file opts w n i f k)).
Proof.
  unfold old_file.
  destruct (snd (w_output w (ReplaceAll_placeholder (optOldFilesExternalCmd opts) f)));
    simpl; repeat constructor.
Qed.

(** An old file: the clock is read once, nothing goes to the collector
    and the command runs once. *)
Lemma process_file_old opts w d n i f fi k :
  w_stat w f = Some fi ->
  After (w_now w k) (TimeAdd (fi_modtime fi) (optOldFilesAge opts)) = true ->
  clock (process_file opts w d n i f k) = S k /\
  adds (trace (process_file opts w d n i f k)) = [] /\
  collector_calls (trace (process_file opts w d n i f k)) = [] /\
  execs (trace (process_file opts w d n i f k)) =
    [ReplaceAll_placeholder (optOldFilesExternalCmd opts) f].
Proof.
  intros Hst Hold. unfold process_file. rewrite Hst.
  set (printIt := d || (i <? 5) || (n - 5 <=? i)).
  destruct (print_log_spec printIt (LogProcessing (i + 1) n f) k) as [Hk Ht].
  rewrite !clock_bind, !trace_bind, Hk.
  change (result (time_Now w k)) with (w_now w k).
  change (clock (time_Now w k)) with (S k).
  change (trace (time_Now w k)) with (@nil Event).
  rewrite Hold.
  destruct (old_file_spec opts w n i f (S k)) as (Hc & Ha & Hcc & He).
  rewrite !adds_app, !collector_calls_app, !execs_app.
  rewrite (output_only_adds _ Ht), (output_only_calls _ Ht), (output_only_execs _ Ht).
  simpl. rewrite Hc, Ha, Hcc, He. repeat split.
Qed.

(** A file that does not parse: one more log line, and nothing else. *)
Lemma process_file_parse_error opts w d n i f fi k :
  w_stat w f = Some fi ->
  After (w_now w k) (TimeAdd (fi_modtime fi) (optOldFilesAge opts)) = false ->
  w_parseMF w f = None ->
  process_file opts w d n i f k =
    (tt, S k,
     trace (when (d || (i <? 5) || (n - 5 <=? i)) (log (LogProcessing (i + 1) n f)) k)
     ++ [EvLog (LogErrorParsing (i + 1) n f)]).
Proof.
  intros Hst Hold Hp. unfold process_file. rewrite Hst, Hp.
  set (printIt := d || (i <? 5) || (n - 5 <=? i)).
  destruct (print_log_spec printIt (LogProcessing (i + 1) n f) k) as [Hk Ht].
  rewrite !bind_eq, Hk.
  change (result (time_Now w k)) with (w_now w k).
  change (clock (time_Now w k)) with (S k).
  change (trace (time_Now w k)) with (@nil Event).
  rewrite Hold. reflexivity.
Qed.

Lemma process_file_events opts w d n i f k :
  Forall (body_event (from_file w f)) (trace (process_file opts w d n i f k)).
Proof.
  unfold process_file.
  set (printIt := d || (i <? 5) || (n - 5 <=? i)).
  destruct (print_log_spec printIt (LogProcessing (i + 1) n f) k) as [Hk Ht].
  rewrite trace_bind, Hk. apply Forall_app; split; [apply output_only_body; exact Ht|].
  destruct (w_stat w f) as [fi|]; [|repeat constructor].
  rewrite trace_bind.
  change (result (time_Now w k)) with (w_now w k).
  change (clock (time_Now w k)) with (S k).
  change (trace (time_Now w k)) with (@nil Event). simpl app.
  destruct (After _ _); [apply old_file_events|].
  destruct (w_parseMF w f) as [mfs|] eqn:Hp; [|repeat constructor].
  rewrite trace_bind. apply Forall_app; split.
  - eapply body_event_impl; [|apply family_loop_events].
    intros a Ha. exists mfs. split; [exact Hp | exact Ha].
  - apply output_only_body. apply print_log_spec.
Qed.

(** ** The loop over the files *)

Lemma files_loop_cons opts w d n i f rest k :
  clock (files_loop opts w d n i (f :: rest) k) =
    clock (files_loop opts w d n (i + 1) rest (clock (process_file opts w d n i f k))) /\
  trace (files_loop opts w d n i (f :: rest) k) =
    trace (process_file opts w d n i f k) ++
    trace (files_loop opts w d n (i + 1) rest (clock (process_file opts w d n i f k))).
Proof. simpl files_loop. rewrite clock_bind, trace_bind. split; reflexivity. Qed.

Lemma files_loop_app opts w d n i pre post k :
  clock (files_loop opts w d n i (pre ++ post) k) =
    clock (files_loop opts w d n (i + Z.of_nat (length pre)) post
             (clock (files_loop opts w d n i pre k))) /\
  trace (files_loop opts w d n i (pre ++ post) k) =
    trace (files_loop opts w d n i pre k) ++
    trace (files_loop opts w d n (i + Z.of_nat (length pre)) post
             (clock (files_loop opts w d n i pre k))).
Proof.
  revert i k. induction pre as [|f pre IH]; intros i k.
  - simpl. rewrite Z.add_0_r. split; reflexivity.
  - change ((f :: pre) ++ post) with (f :: (pre ++ post)).
    destruct (files_loop_cons opts w d n i f (pre ++ post) k) as [Hc Ht].
    destruct (files_loop_cons opts w d n i f pre k) as [Hc' Ht'].
    destruct (IH (i + 1) (clock (process_file opts w d n i f k))) as [IHc IHt].
    replace (i + Z.of_nat (length (f :: pre))) with (i + 1 + Z.of_nat (length pre))
      by (simpl length; lia).
    rewrite Hc, Ht, Hc', Ht', IHc, IHt, <- app_assoc. split; reflexivity.
Qed.

Lemma files_loop_events opts w d n i files k :
  Forall (body_event (from_files w files)) (trace (files_loop opts w d n i files k)).
Proof.
  revert i k. induction files as [|f rest IH]; intros i k.
  - constructor.
  - destruct (files_loop_cons opts w d n i f rest k) as [_ Ht]. rewrite Ht.
    apply Forall_app; split.
    + eapply body_event_impl; [|apply process_file_events].
      intros a Ha. exists f. split; [apply list_elem_of_here | exact Ha].
    + eapply body_event_impl; [|apply IH].
      intros a (f' & Hin & Ha). exists f'.
      split; [apply list_elem_of_further; exact Hin | exact Ha].
Qed.

(** ** One pass *)

Lemma debug_switch_spec w filepath k :
  output_only (trace (debug_switch w filepath k)).
Proof.
  unfold debug_switch. destruct (w_stat w _); constructor.
Qed.

(** A pass either breaks, having touched nothing, or clears the
    collector once, before the loop over the files, and sleeps. *)
Lemma scan_pass_shape opts w k :
  (result (scan_pass opts w k) = Break /\ output_only (trace (scan_pass opts w k))) \/
  (result (scan_pass opts w k) = Next /\
   exists pre body files,
     trace (scan_pass opts w k) = pre ++ EvClear :: body ++ [EvSleep (optScanInterval opts)] /\
     output_only pre /\ Forall (body_event (from_files w files)) body).
Proof.
  unfold scan_pass.
  destruct (w_stat w (optPromPath opts)) as [fileinfo|]; [|left; split; [reflexivity|constructor]].
  rewrite !result_bind, !trace_bind.
  set (r := debug_switch w (optPromPath opts) k).
  assert (Hd : output_only (trace r)) by apply debug_switch_spec.
  destruct (print_log_spec (result r) LogDebugMode (clock r)) as [Hk Ht].
  rewrite Hk.
  destruct (collect_files w (optPromPath opts) fileinfo) as [files|].
  - right. rewrite !result_bind, !trace_bind. split; [reflexivity|].
    exists (trace r ++ trace (when (result r) (log LogDebugMode) (clock r))
            ++ [EvLog (LogFound (Z.of_nat (length files)))]),
           (trace (files_loop opts w (result r) (Z.of_nat (length files)) 0 files (clock r))),
           files.
    split; [|split].
    + change (trace (log ?m ?k')) with [EvLog m].
      change (clock (log ?m ?k')) with k'.
      change (trace (emit ?e ?k')) with [e].
      change (clock (emit ?e ?k')) with k'.
      change (trace (ret ?x ?k')) with (@nil Event).
      rewrite <- !app_assoc. reflexivity.
    + repeat apply output_only_app; try assumption. repeat constructor.
    + apply files_loop_events.
  - left. split; [reflexivity|]. simpl. rewrite app_nil_r.
    apply output_only_app; assumption.
Qed.

(** ** The collector *)

Lemma elem_of_points (c : gmap Identity Point) p :
  p ∈ points c <-> exists id, c !! id = Some p.
Proof.
  unfold points. rewrite list_elem_of_fmap. split.
  - intros ([id q] & -> & Hin). exists id. apply elem_of_map_to_list. exact Hin.
  - intros (id & Hid). exists (id, p). split; [reflexivity|].
    apply elem_of_map_to_list. exact Hid.
Qed.

Lemma well_keyed_empty : well_keyed ∅.
Proof. intros id p H. rewrite lookup_empty in H. discriminate. Qed.

Lemma well_keyed_apply c e : well_keyed c -> well_keyed (apply_event c e).
Proof.
  intros Hc. destruct e; simpl; try exact Hc.
  - apply well_keyed_empty.
  - intros id p. unfold collector_Add. rewrite lookup_insert_Some.
    intros [[<- <-] | [_ H]]; [reflexivity | apply Hc; exact H].
Qed.

Lemma well_keyed_replay tr c : well_keyed c -> well_keyed (replay tr c).
Proof.
  revert c. induction tr as [|e tr IH]; intros c Hc; [exact Hc|].
  simpl. apply IH, well_keyed_apply, Hc.
Qed.

(** A point of the collector was there before or was added since. *)
Lemma replay_lookup (tr : list Event) (c : gmap Identity Point) (id : Identity) (p : Point) :
  replay tr c !! id = Some p ->
  c !! id = Some p \/ exists a, a ∈ adds tr /\ p = point_of a.
Proof.
  revert c. induction tr as [|e tr IH]; intros c H; [left; exact H|].
  simpl in H. apply IH in H. destruct H as [H | (a & Ha & Hp)].
  - destruct e; simpl in H; try (left; exact H).
    + unfold collector_Clear in H. rewrite lookup_empty in H. discriminate.
    + unfold collector_Add in H. apply lookup_insert_Some in H.
      destruct H as [[_ <-] | [_ H]]; [|left; exact H].
      right. exists a. split; [apply list_elem_of_here | reflexivity].
  - right. exists a. split; [|exact Hp].
    destruct e; simpl; try exact Ha. apply list_elem_of_further; exact Ha.
Qed.

(** Without a [Clear], a trace does to the collector what its [Add]
    calls do. *)
Lemma replay_fill tr c : EvClear ∉ tr -> replay tr c = fill (adds tr) c.
Proof.
  revert c. induction tr as [|e tr IH]; intros c H; [reflexivity|].
  apply not_elem_of_cons in H. destruct H as [He H].
  destruct e; simpl; try (apply IH; exact H). contradiction.
Qed.

Lemma adds_take j tr : exists m, adds (take j tr) = take m (adds tr).
Proof.
  revert j. induction tr as [|e tr IH]; intros j.
  - exists O. destruct j; reflexivity.
  - destruct j as [|j]; [exists O; reflexivity|].
    destruct (IH j) as [m Hm].
    destruct e; simpl; try (exists m; exact Hm).
    exists (S m). simpl. rewrite Hm. reflexivity.
Qed.

Lemma adds_take_subseteq j tr : adds (take j tr) ⊆ adds tr.
Proof.
  destruct (adds_take j tr) as [m ->]. apply subseteq_take.
Qed.

Lemma output_only_take j tr : output_only tr -> output_only (take j tr).
Proof. unfold output_only. apply Forall_take. Qed.

(** ** Where the points of the collector come from *)

Lemma scan_pass_adds opts w k :
  Forall (fun a => exists f, from_file w f a) (adds (trace (scan_pass opts w k))).
Proof.
  destruct (scan_pass_shape opts w k)
    as [[_ Ho] | [_ (pre & body & files & Ht & Hpre & Hbody)]].
  - rewrite (output_only_adds _ Ho). constructor.
  - rewrite Ht, adds_app, (output_only_adds _ Hpre). simpl.
    rewrite adds_app. simpl. rewrite app_nil_r.
    apply body_event_adds in Hbody.
    revert Hbody. apply List.Forall_impl.
    intros a (f & _ & Ha). exists f. exact Ha.
Qed.

Lemma scan_loop_adds opts worlds k fuel :
  Forall (fun a => exists pass f, from_file (worlds pass) f a)
         (adds (snd (scan_loop opts worlds k fuel))).
Proof.
  revert k. induction fuel as [|fuel IH]; intros k; [constructor|].
  simpl scan_loop.
  assert (Hp : Forall (fun a => exists pass f, from_file (worlds pass) f a)
                      (adds (trace (scan_pass opts (worlds k) O)))).
  { generalize (scan_pass_adds opts (worlds k) O). apply List.Forall_impl.
    intros a [f Ha]. exists k, f. exact Ha. }
  destruct (result (scan_pass opts (worlds k) O)); simpl; [exact Hp|].
  rewrite adds_app. apply Forall_app; split; [exact Hp | apply IH].
Qed.

(** C5. A metric family whose type is Summary, Histogram or any other
    type than Gauge, Counter and Untyped adds nothing: the loop over its
    metrics makes no [collector.Add] call, emits no event and leaves the
    point counter as it is.  So, whenever a scrape comes while the scan
    job runs, every point of its snapshot was added for a metric of a
    family of a supported type, decoded from some file in some pass. *)
Theorem C5_unsupported_kinds_never_added :
  (forall w d name mf labels cnt k,
     supported (mf_type mf) = false ->
     metric_loop w d name mf (mf_metric mf) labels cnt k = ((labels, cnt), k, [])) /\
  (forall opts worlds fuel j maxAge now p,
     p ∈ Snapshot maxAge now (replay (take j (snd (scan_job opts worlds fuel))) ∅) ->
     exists pass f a, from_file (worlds pass) f a /\ p = point_of a).
Proof.
  split.
  - intros. apply metric_loop_unsupported. assumption.
  - intros opts worlds fuel j maxAge now p Hp.
    unfold Snapshot in Hp. apply list_elem_of_filter in Hp. destruct Hp as [_ Hp].
    apply elem_of_points in Hp. destruct Hp as [id Hid].
    apply replay_lookup in Hid. destruct Hid as [Hid | (a & Ha & ->)].
    { rewrite lookup_empty in Hid. discriminate. }
    apply adds_take_subseteq in Ha. unfold scan_job in Ha. simpl in Ha.
    pose proof (scan_loop_adds opts worlds O fuel) as Hall.
    rewrite Forall_forall in Hall. destruct (Hall a Ha) as (pass & f & Hf).
    exists pass, f, a. split; [exact Hf | reflexivity].
Qed.

(** ** Scrapes during a pass *)

Lemma observed_cases opts w c0 j :
  observed opts w c0 j = c0 \/
  exists m, observed opts w c0 j = fill (take m (adds (trace (scan_pass opts w O)))) ∅.
Proof.
  unfold observed.
  destruct (scan_pass_shape opts w O)
    as [[_ Ho] | [_ (pre & body & files & Ht & Hpre & Hbody)]].
  - left. apply output_only_replay, output_only_take, Ho.
  - rewrite Ht. set (rest := body ++ [EvSleep (optScanInterval opts)]).
    assert (Hrest : EvClear ∉ rest).
    { subst rest. rewrite elem_of_app. intros [Hin | Hin].
      - exact (body_event_no_clear _ _ Hbody Hin).
      - apply list_elem_of_singleton in Hin. discriminate. }
    rewrite take_app.
    destruct (decide (j <= length pre)%nat) as [Hle | Hgt].
    + left. replace (j - length pre)%nat with O by lia. rewrite take_0, app_nil_r.
      apply output_only_replay, output_only_take, Hpre.
    + right. rewrite take_ge by lia.
      destruct (j - length pre)%nat as [|j'] eqn:Hj; [lia|].
      rewrite adds_app, (output_only_adds _ Hpre). simpl.
      rewrite replay_app. simpl. unfold collector_Clear.
      destruct (adds_take j' rest) as [m Hm].
      exists m. rewrite <- Hm. apply replay_fill.
      intros Hin. apply Hrest. revert Hin. apply subseteq_take.
Qed.

(** C1, as stated, fails.  Pass N has left [x = 1] in the collector.
    A scrape that comes right after pass N+1 has cleared the collector
    reads an empty snapshot: neither the points of pass N nor those of
    pass N+1. *)
Lemma C1_counterexample : ~ atomic_visibility ex_opts ex_world_N1 ex_collector_N.
Proof.
  intros H.
  destruct (H 2%nat (25 * Hour) (ex_t0 + Hour)) as [E | E];
    vm_compute in E; discriminate E.
Qed.

(** The same pass, one [Add] later: the scrape reads [x = 2] alone, a
    part of the points of pass N+1. *)
Example partially_populated :
  p_value <$> Snapshot (25 * Hour) (ex_t0 + Hour) ex_collector_N = [1] /\
  p_value <$> Snapshot (25 * Hour) (ex_t0 + Hour) (observed ex_opts ex_world_N1 ex_collector_N 4) = [2] /\
  length (Snapshot (25 * Hour) (ex_t0 + Hour)
            (replay (trace (scan_pass ex_opts ex_world_N1 O)) ex_collector_N)) = 2%nat.
Proof. vm_compute. repeat split. Qed.

(** C1, amended.  A scrape that comes during a pass reads either the
    collector as the previous pass left it, or the points the new pass
    has added so far, and nothing else: the points of the first [m]
    [Add] calls of the pass on an empty collector, for some [m] (none,
    a part or all of them).  It never reads a point of the previous pass
    next to a point of the new pass. *)
Theorem C1_scrape_reads_previous_or_new_so_far opts w c0 j maxAge now :
  (observed opts w c0 j = c0 /\
   Snapshot maxAge now (observed opts w c0 j) = Snapshot maxAge now c0) \/
  (exists m,
     observed opts w c0 j = fill (take m (adds (trace (scan_pass opts w O)))) ∅ /\
     Snapshot maxAge now (observed opts w c0 j) =
       Snapshot maxAge now (fill (take m (adds (trace (scan_pass opts w O)))) ∅)).
Proof.
  destruct (observed_cases opts w c0 j) as [H | [m H]].
  - left. rewrite H. split; reflexivity.
  - right. exists m. rewrite H. split; reflexivity.
Qed.

(** ** The end of the loop *)

Lemma scan_loop_break opts worlds k fuel :
  w_stat (worlds k) (optPromPath opts) = None ->
  scan_loop opts worlds k (S fuel) = (Ended, []).
Proof.
  intros H. simpl. unfold scan_pass. rewrite H. reflexivity.
Qed.

(** C2, on the code.  The configured path is missing when the job
    starts and is there from the second pass on.  However many turns
    the loop is given, the job has ended in the first one: the only
    event is the start-up log line, and no pass runs when the path is
    back.  Had the path been there, the job would be looping. *)
Theorem C2_scan_job_ends_at_first_error :
  (forall fuel, scan_job ex_opts ex_worlds_late (S fuel) = (Ended, [EvLog LogStarted])) /\
  w_stat (ex_worlds_late 1) (optPromPath ex_opts) = Some ex_file /\
  fst (scan_job ex_opts (fun _ => ex_world_N) 3) = Looping.
Proof.
  split; [|split].
  - intros fuel. unfold scan_job. rewrite scan_loop_break; reflexivity.
  - reflexivity.
  - vm_compute. reflexivity.
Qed.

(** ** Labels *)

(** In general the call for a metric carries the labels of all the
    metrics of its family handled before it, as far as its own labels
    do not overwrite them. *)
Lemma metric_loop_labels w d name mf ms labels cnt k :
  supported (mf_type mf) = true ->
  a_labels <$> adds (trace (metric_loop w d name mf ms labels cnt k)) =
    accumulated_labels ms labels.
Proof.
  intros Hs. revert labels cnt k. induction ms as [|m ms IH]; intros labels cnt k.
  - reflexivity.
  - simpl metric_loop. rewrite trace_bind.
    destruct (switch_type_supported (mf_type mf) m Hs) as (mt & v & Hsw).
    destruct (metric_body_supported w d name mf m labels k mt v Hsw)
      as (tr1 & tr2 & Hb & H1 & H2).
    rewrite Hb. unfold result, clock, trace; simpl fst; simpl snd.
    rewrite adds_app.
    destruct (adds_around tr1 (add_call w k name mf m labels mt v) tr2 H1 H2) as [-> _].
    simpl. f_equal. apply IH.
Qed.

(** C3, on the code.  The family [x] has the metrics [x{a="1"} 1] and
    [x{b="2"} 2].  The call for the first metric has its labels; the
    call for the second metric has the label [a="1"] of the first metric
    next to its own [b="2"], and this is the label set the collector
    holds for the point of value 2. *)
Theorem C3_labels_leak_between_metrics :
  exists a1 a2,
    adds (trace (scan_pass ex_opts ex_world_labels O)) = [a1; a2] /\
    a_labels a1 = labels_of ex_metric_a /\
    a_value a2 = 2 /\
    a_labels a2 !! "a" = Some "1" /\
    a_labels a2 !! "b" = Some "2" /\
    labels_of ex_metric_b !! "a" = None /\
    a_labels a2 <> labels_of ex_metric_b /\
    point_of a2 ∈ points (replay (trace (scan_pass ex_opts ex_world_labels O)) ∅).
Proof.
  eexists _, _. split; [vm_compute; reflexivity|].
  split; [vm_compute; reflexivity|].
  split; [reflexivity|].
  split; [vm_compute; reflexivity|].
  split; [vm_compute; reflexivity|].
  split; [vm_compute; reflexivity|].
  split.
  - intros E. apply (f_equal (fun l => l !! "a")) in E. vm_compute in E. discriminate E.
  - apply elem_of_points.
    match goal with |- exists id, _ = Some ?p => exists (identity p) end.
    vm_compute. reflexivity.
Qed.

(** ** Timestamps *)

Lemma wrap64_id z : int64_min <= z <= int64_max -> wrap64 z = z.
Proof.
  unfold wrap64, int64_min, int64_max.
  change (2 ^ 63) with 9223372036854775808.
  change (2 ^ 64) with 18446744073709551616.
  intros H. rewrite Z.mod_small by lia. lia.
Qed.

Lemma at_millisecond_range now :
  int64_min <= now <= int64_max -> int64_min <= at_millisecond now <= int64_max.
Proof.
  unfold at_millisecond, Millisecond, int64_min, int64_max.
  change (2 ^ 63) with 9223372036854775808. intros H.
  pose proof (Z.quot_rem' now 1000000) as E.
  destruct (Z.le_gt_cases 0 now) as [Hs | Hs].
  - pose proof (Z.rem_bound_pos now 1000000 ltac:(lia) ltac:(lia)). lia.
  - pose proof (Z.rem_bound_pos_neg now 1000000 ltac:(lia) ltac:(lia)). lia.
Qed.

Lemma at_millisecond_close now :
  0 <= now -> now - Millisecond < at_millisecond now <= now.
Proof.
  unfold at_millisecond, Millisecond. intros H.
  pose proof (Z.quot_rem' now 1000000) as E.
  pose proof (Z.rem_bound_pos now 1000000 ltac:(lia) ltac:(lia)). lia.
Qed.

(** The point added for a metric without a usable timestamp is stamped
    with the reading of the wall clock, at the millisecond. *)
Lemma stamp_now w k ts :
  ts <= 0 -> int64_min <= w_now w k <= int64_max ->
  wrap64 (stamp w k ts * Millisecond) = at_millisecond (w_now w k).
Proof.
  intros Hts Hr. unfold stamp.
  destruct (Z.leb_spec ts 0) as [_ | H]; [|lia].
  unfold UnixNano. rewrite (wrap64_id _ Hr).
  apply wrap64_id. apply at_millisecond_range. exact Hr.
Qed.

Lemma stamp_kept w k ts :
  0 < ts -> ts * Millisecond <= int64_max ->
  wrap64 (stamp w k ts * Millisecond) = ts * Millisecond.
Proof.
  intros Hts Hr. unfold stamp.
  destruct (Z.leb_spec ts 0) as [H | _]; [lia|].
  apply wrap64_id. unfold int64_min, Millisecond in *.
  change (2 ^ 63) with 9223372036854775808. lia.
Qed.

(** C4, as stated, fails.  The metric carries the timestamp -5 ms, an
    instant before the epoch; its point does not keep it: it is stamped
    with the wall-clock time of the pass. *)
Lemma C4_counterexample :
  exists a,
    adds (trace (metric_body ex_world_N false "x" (ex_family MetricType_GAUGE [])
                   (ex_metric [] 1 (Some (-5))) ∅ O)) = [a] /\
    ~ timestamp_as_stated (w_now ex_world_N O) (ex_metric [] 1 (Some (-5))) a /\
    a_time a = w_now ex_world_N O.
Proof.
  eexists. split; [vm_compute; reflexivity|]. split.
  - vm_compute. discriminate.
  - vm_compute. reflexivity.
Qed.

(** A timestamp whose nanoseconds do not fit [int64] (here 10^13 ms,
    in the year 2286) comes out wrapped around. *)
Example far_timestamp_wraps :
  a_time <$> adds (trace (metric_body ex_world_N false "x" (ex_family MetricType_GAUGE [])
                            (ex_metric [] 1 (Some (10 ^ 13))) ∅ O))
    = [10 ^ 19 - 2 ^ 64].
Proof. vm_compute. reflexivity. Qed.

(** C4, amended.  For every decoded metric of a supported type one
    point is added.  If the metric carries no timestamp, the point is
    stamped with the wall-clock time read while the metric is handled
    (a reading whose nanoseconds fit [int64]), at the millisecond (so
    within the last millisecond before that reading).  If the metric
    carries a timestamp greater than zero and at most 9223372036854 ms,
    so that its nanoseconds fit [int64], the point keeps it. *)
Theorem C4_timestamp_defaults_to_now_positive_kept w d name mf m labels k :
  supported (mf_type mf) = true ->
  int64_min <= w_now w k <= int64_max ->
  exists a,
    adds (trace (metric_body w d name mf m labels k)) = [a] /\
    (m_timestamp_ms m = None ->
       timestamp_as_stated (w_now w k) m a /\
       (0 <= w_now w k -> w_now w k - Millisecond < a_time a <= w_now w k)) /\
    (forall ts, m_timestamp_ms m = Some ts -> 0 < ts -> ts * Millisecond <= int64_max ->
       timestamp_as_stated (w_now w k) m a).
Proof.
  intros Hs Hr.
  destruct (switch_type_supported (mf_type mf) m Hs) as (mt & v & Hsw).
  destruct (metric_body_supported w d name mf m labels k mt v Hsw)
    as (tr1 & tr2 & Hb & H1 & H2).
  exists (add_call w k name mf m labels mt v).
  rewrite Hb. unfold trace; simpl snd.
  split; [apply adds_around; assumption|]. split.
  - intros Hn. unfold timestamp_as_stated. rewrite Hn.
    unfold add_call, GetTimestampMs, Unix0; simpl. rewrite Hn; simpl.
    rewrite stamp_now by (lia || exact Hr).
    split; [reflexivity|]. apply at_millisecond_close.
  - intros ts Hts Hpos Hfit. unfold timestamp_as_stated. rewrite Hts.
    unfold add_call, GetTimestampMs, Unix0; simpl. rewrite Hts; simpl.
    apply stamp_kept; assumption.
Qed.

(** A metric without timestamp and a metric with the timestamp 5 ms,
    both at the first clock reading of the pass. *)
Lemma C4_witness :
  (exists a,
     adds (trace (metric_body ex_world_N false "x" (ex_family MetricType_GAUGE [])
                    (ex_metric [] 1 None) ∅ O)) = [a] /\
     a_time a = ex_t0 + Hour) /\
  (exists a,
     adds (trace (metric_body ex_world_N false "x" (ex_family MetricType_GAUGE [])
                    (ex_metric [] 1 (Some 5)) ∅ O)) = [a] /\
     a_time a = 5000000).
Proof.
  split.
  - destruct (C4_timestamp_defaults_to_now_positive_kept ex_world_N false "x"
                (ex_family MetricType_GAUGE []) (ex_metric [] 1 None) ∅ O)
      as (a & Ha & Hnone & _); [reflexivity | vm_compute; split; discriminate |].
    exists a. split; [exact Ha|].
    destruct (Hnone eq_refl) as [Ht _]. exact Ht.
  - destruct (C4_timestamp_defaults_to_now_positive_kept ex_world_N false "x"
                (ex_family MetricType_GAUGE []) (ex_metric [] 1 (Some 5)) ∅ O)
      as (a & Ha & _ & Hsome); [reflexivity | vm_compute; split; discriminate |].
    exists a. split; [exact Ha|].
    apply (Hsome 5); [reflexivity | reflexivity | vm_compute; discriminate].
Defined.

Lemma switch_type_clear_timestamp t m :
  switch_type t (clear_timestamp m) = switch_type t m.
Proof. destruct t; reflexivity. Qed.

Lemma stamp_nonpositive w k ts :
  ts <= 0 -> stamp w k ts = Z.quot (UnixNano (w_now w k)) 1000000.
Proof.
  intros H. unfold stamp. destruct (Z.leb_spec ts 0); [reflexivity | lia].
Qed.

Lemma handle_timestamp_nonpositive w ts :
  ts <= 0 -> handle_timestamp w false ts = handle_timestamp w false 0.
Proof.
  intros H. unfold handle_timestamp.
  destruct (Z.leb_spec ts 0); [reflexivity | lia].
Qed.

(** C10. For a metric of a family of type Gauge, Counter or Untyped
    that carries a timestamp of zero milliseconds or less, one point is
    added, and it is stamped with the wall clock, read once while the
    metric is handled, at the millisecond, not with the timestamp of the
    metric; it is the very call made for the same metric without
    timestamp.  The loop body leaves the same labels and the same clock
    position as for the metric without timestamp, and outside debug mode
    the two runs are equal event by event (in debug mode a log line
    prints the timestamp found). *)
Theorem C10_nonpositive_timestamp_replaced_by_now w d name mf m labels k ts :
  supported (mf_type mf) = true ->
  m_timestamp_ms m = Some ts ->
  ts <= 0 ->
  (exists a,
     adds (trace (metric_body w d name mf m labels k)) = [a] /\
     adds (trace (metric_body w d name mf (clear_timestamp m) labels k)) = [a] /\
     a_time a = Unix0 (wrap64 (Z.quot (UnixNano (w_now w k)) 1000000 * Millisecond)) /\
     (int64_min <= w_now w k <= int64_max -> a_time a = at_millisecond (w_now w k))) /\
  result (metric_body w d name mf m labels k) =
    result (metric_body w d name mf (clear_timestamp m) labels k) /\
  clock (metric_body w d name mf m labels k) = S k /\
  clock (metric_body w d name mf (clear_timestamp m) labels k) = S k /\
  collector_calls (trace (metric_body w d name mf m labels k)) =
    collector_calls (trace (metric_body w d name mf (clear_timestamp m) labels k)) /\
  (d = false ->
     metric_body w d name mf m labels k =
       metric_body w d name mf (clear_timestamp m) labels k).
Proof.
  intros Hs Hts Hle.
  assert (Hg : GetTimestampMs m = ts) by (unfold GetTimestampMs; rewrite Hts; reflexivity).
  destruct (switch_type_supported (mf_type mf) m Hs) as (mt & v & Hsw).
  pose proof Hsw as Hsw'. rewrite <- switch_type_clear_timestamp in Hsw'.
  destruct (metric_body_supported w d name mf m labels k mt v Hsw)
    as (tr1 & tr2 & Hb & H1 & H2).
  destruct (metric_body_supported w d name mf (clear_timestamp m) labels k mt v Hsw')
    as (tr1' & tr2' & Hb' & H1' & H2').
  assert (Hcall : add_call w k name mf (clear_timestamp m) labels mt v =
                  add_call w k name mf m labels mt v).
  { unfold add_call. rewrite Hg. simpl m_label.
    change (GetTimestampMs (clear_timestamp m)) with 0.
    rewrite (stamp_nonpositive w k ts Hle), (stamp_nonpositive w k 0) by lia.
    reflexivity. }
  rewrite Hcall in Hb'.
  destruct (adds_around tr1 (add_call w k name mf m labels mt v) tr2 H1 H2) as [Ha Hc].
  destruct (adds_around tr1' (add_call w k name mf m labels mt v) tr2' H1' H2') as [Ha' Hc'].
  split; [|split; [|split; [|split; [|split]]]].
  - exists (add_call w k name mf m labels mt v).
    rewrite Hb, Hb'. unfold trace; simpl snd.
    split; [exact Ha|]. split; [exact Ha'|]. split.
    + unfold add_call; simpl. rewrite Hg, (stamp_nonpositive w k ts Hle). reflexivity.
    + intros Hr. unfold add_call, Unix0; simpl. rewrite Hg.
      apply stamp_now; assumption.
  - rewrite Hb, Hb'. reflexivity.
  - rewrite Hb. unfold clock; simpl. rewrite Hg.
    destruct (Z.leb_spec ts 0); [reflexivity | lia].
  - rewrite Hb'. reflexivity.
  - rewrite Hb, Hb'. unfold trace; simpl snd. rewrite Hc, Hc'. reflexivity.
  - intros Hd. unfold metric_body. rewrite switch_type_clear_timestamp, Hsw.
    rewrite Hg. change (GetTimestampMs (clear_timestamp m)) with 0.
    subst d. simpl when.
    rewrite (handle_timestamp_nonpositive w ts Hle).
    reflexivity.
Qed.

(** A gauge with the timestamp -5 ms: its point is stamped with the
    first clock reading of the pass, as is the point of the same gauge
    without timestamp. *)
Lemma C10_witness :
  (exists a,
     adds (trace (metric_body ex_world_N false "x" (ex_family MetricType_GAUGE [])
                    (ex_metric [] 1 (Some (-5))) ∅ O)) = [a] /\
     adds (trace (metric_body ex_world_N false "x" (ex_family MetricType_GAUGE [])
                    (ex_metric [] 1 None) ∅ O)) = [a] /\
     a_time a = ex_t0 + Hour) /\
  metric_body ex_world_N false "x" (ex_family MetricType_GAUGE [])
    (ex_metric [] 1 (Some 0)) ∅ O =
  metric_body ex_world_N false "x" (ex_family MetricType_GAUGE [])
    (ex_metric [] 1 None) ∅ O.
Proof.
  split.
  - destruct (C10_nonpositive_timestamp_replaced_by_now ex_world_N false "x"
                (ex_family MetricType_GAUGE []) (ex_metric [] 1 (Some (-5))) ∅ O (-5))
      as ((a & Ha & Ha' & _ & Ht) & _); [reflexivity | reflexivity | lia |].
    exists a. split; [exact Ha|]. split; [exact Ha'|].
    apply Ht. vm_compute. split; discriminate.
  - apply (C10_nonpositive_timestamp_replaced_by_now ex_world_N false "x"
             (ex_family MetricType_GAUGE []) (ex_metric [] 1 (Some 0)) ∅ O 0);
      [reflexivity | reflexivity | lia | reflexivity].
Defined.

(** ** Files that are skipped *)

Lemma files_loop_split opts w d n i pre f post k :
  trace (files_loop opts w d n i (pre ++ f :: post) k) =
    trace (files_loop opts w d n i pre k) ++
    trace (process_file opts w d n (i + Z.of_nat (length pre)) f
             (clock (files_loop opts w d n i pre k))) ++
    trace (files_loop opts w d n (i + Z.of_nat (length pre) + 1) post
             (clock (process_file opts w d n (i + Z.of_nat (length pre)) f
                       (clock (files_loop opts w d n i pre k))))).
Proof.
  destruct (files_loop_app opts w d n i pre (f :: post) k) as [_ Ht]. rewrite Ht.
  destruct (files_loop_cons opts w d n (i + Z.of_nat (length pre)) f post
              (clock (files_loop opts w d n i pre k))) as [_ Ht'].
  rewrite Ht'. reflexivity.
Qed.

Lemma append_empty (s : string) : s +:+ EmptyString = s.
Proof.
  induction s as [|c s IH]; [reflexivity|].
  change (String c s +:+ EmptyString) with (String c (s +:+ EmptyString)).
  rewrite IH. reflexivity.
Qed.

(** The default command template. *)
Lemma ReplaceAll_placeholder_default f :
  ReplaceAll_placeholder "ls -l {}" f = "ls -l " +:+ f.
Proof.
  change (ReplaceAll_placeholder "ls -l {}" f) with ("ls -l " +:+ (f +:+ EmptyString)).
  rewrite append_empty. reflexivity.
Qed.

Lemma ReplaceAll_placeholder_other c rest new :
  Ascii.eqb c "{" = false ->
  ReplaceAll_placeholder (String c rest) new = String c (ReplaceAll_placeholder rest new).
Proof.
  destruct c as [b0 b1 b2 b3 b4 b5 b6 b7].
  destruct b0, b1, b2, b3, b4, b5, b6, b7; intros H; try reflexivity; discriminate H.
Qed.

Lemma ReplaceAll_placeholder_brace_free s new :
  brace_free s = true -> ReplaceAll_placeholder s new = s.
Proof.
  induction s as [|c s IH]; intros H; [reflexivity|].
  simpl in H. apply andb_true_iff in H. destruct H as [Hc Hs].
  apply negb_true_iff in Hc.
  rewrite ReplaceAll_placeholder_other by exact Hc. rewrite IH by exact Hs. reflexivity.
Qed.

Lemma ReplaceAll_placeholder_first pre rest new :
  brace_free pre = true ->
  ReplaceAll_placeholder (pre +:+ "{}" +:+ rest) new =
    pre +:+ new +:+ ReplaceAll_placeholder rest new.
Proof.
  induction pre as [|c pre IH]; intros H; [reflexivity|].
  simpl in H. apply andb_true_iff in H. destruct H as [Hc Hs].
  apply negb_true_iff in Hc.
  change (String c pre +:+ "{}" +:+ rest) with (String c (pre +:+ "{}" +:+ rest)).
  rewrite ReplaceAll_placeholder_other by exact Hc. rewrite IH by exact Hs. reflexivity.
Qed.

Lemma ReplaceAll_placeholder_join pieces new :
  Forall (fun p => brace_free p = true) pieces ->
  ReplaceAll_placeholder (join "{}" pieces) new = join new pieces.
Proof.
  induction 1 as [|p rest Hp Hrest IH]; [reflexivity|].
  destruct rest as [|q rest].
  - simpl join. apply ReplaceAll_placeholder_brace_free. exact Hp.
  - change (join "{}" (p :: q :: rest)) with (p +:+ "{}" +:+ join "{}" (q :: rest)).
    change (join new (p :: q :: rest)) with (p +:+ new +:+ join new (q :: rest)).
    rewrite ReplaceAll_placeholder_first by exact Hp. rewrite IH. reflexivity.
Qed.

(** C6. In the loop over the files [pre ++ f :: post] of a pass, let
    the file [f] be older than the threshold when its turn comes: the
    wall clock read then is after its modification time plus
    [optOldFilesAge].  Then the events of the pass are those of the
    files before it, those of [f], and those of the files after it, and
    among the events of [f] there is no collector call (it adds no
    point) and exactly one external command, the template with every
    placeholder replaced by the path [f]: for a template made of the
    pieces [pieces] with a placeholder between each two of them (and no
    other brace), the command is the pieces with the path between each
    two of them; for the default template, [ls -l] followed by the
    path. *)
Theorem C6_old_file_adds_nothing_runs_command_once opts w d n i pre f post fi k :
  w_stat w f = Some fi ->
  fi_modtime fi + optOldFilesAge opts < w_now w (clock (files_loop opts w d n i pre k)) ->
  exists tr_f,
    tr_f = trace (process_file opts w d n (i + Z.of_nat (length pre)) f
                    (clock (files_loop opts w d n i pre k))) /\
    trace (files_loop opts w d n i (pre ++ f :: post) k) =
      trace (files_loop opts w d n i pre k) ++ tr_f ++
      trace (files_loop opts w d n (i + Z.of_nat (length pre) + 1) post
               (S (clock (files_loop opts w d n i pre k)))) /\
    adds tr_f = [] /\
    collector_calls tr_f = [] /\
    execs tr_f = [ReplaceAll_placeholder (optOldFilesExternalCmd opts) f] /\
    (forall pieces,
       optOldFilesExternalCmd opts = join "{}" pieces ->
       Forall (fun p => brace_free p = true) pieces ->
       execs tr_f = [join f pieces]) /\
    (optOldFilesExternalCmd opts = "ls -l {}" -> execs tr_f = ["ls -l " +:+ f]).
Proof.
  intros Hst Hold.
  set (k1 := clock (files_loop opts w d n i pre k)) in *.
  assert (Hafter : After (w_now w k1) (TimeAdd (fi_modtime fi) (optOldFilesAge opts)) = true).
  { unfold After, TimeAdd. apply Z.ltb_lt. exact Hold. }
  destruct (process_file_old opts w d n (i + Z.of_nat (length pre)) f fi k1 Hst Hafter)
    as (Hc & Ha & Hcc & He).
  eexists. split; [reflexivity|]. split; [|split; [|split; [|split; [|split]]]].
  - rewrite files_loop_split. fold k1. rewrite Hc. reflexivity.
  - exact Ha.
  - exact Hcc.
  - exact He.
  - intros pieces Hcmd Hfree. rewrite He, Hcmd.
    rewrite ReplaceAll_placeholder_join by exact Hfree. reflexivity.
  - intros Hcmd. rewrite He, Hcmd. rewrite ReplaceAll_placeholder_default. reflexivity.
Qed.

(** The old file [/m.prom] and the template [cp {} {}.bak]. *)
Lemma C6_witness :
  adds (trace (files_loop ex_opts_backup ex_world_N false 1 0 ["/m.prom"] O)) = [] /\
  execs (trace (files_loop ex_opts_backup ex_world_N false 1 0 ["/m.prom"] O)) =
    ["cp /m.prom /m.prom.bak"].
Proof.
  destruct (C6_old_file_adds_nothing_runs_command_once ex_opts_backup ex_world_N false 1 0
              [] "/m.prom" [] ex_file O)
    as (tr_f & _ & Ht & Ha & _ & _ & Hj & _); [reflexivity | vm_compute; reflexivity |].
  simpl app in Ht. rewrite Ht. rewrite adds_app, execs_app, Ha.
  rewrite (Hj ["cp "; " "; ".bak"]); [split; reflexivity | reflexivity |].
  repeat constructor.
Defined.

(** C9. In the loop over the files [pre ++ f :: post] of a pass, let
    the file [f] be current (not old when its turn comes) and fail to
    parse.  Then the failure is logged and that is all the file does:
    its events are log lines, the collector after them is the collector
    as the files before it left it, and the loop goes on with the files
    after it; the [Add] calls of the pass are those of the files before
    and after [f]. *)
Theorem C9_parse_error_skips_only_that_file opts w d n i pre f post fi k c :
  w_stat w f = Some fi ->
  w_now w (clock (files_loop opts w d n i pre k)) <= fi_modtime fi + optOldFilesAge opts ->
  w_parseMF w f = None ->
  exists tr_f,
    tr_f = trace (process_file opts w d n (i + Z.of_nat (length pre)) f
                    (clock (files_loop opts w d n i pre k))) /\
    trace (files_loop opts w d n i (pre ++ f :: post) k) =
      trace (files_loop opts w d n i pre k) ++ tr_f ++
      trace (files_loop opts w d n (i + Z.of_nat (length pre) + 1) post
               (S (clock (files_loop opts w d n i pre k)))) /\
    EvLog (LogErrorParsing (i + Z.of_nat (length pre) + 1) n f) ∈ tr_f /\
    output_only tr_f /\
    replay (trace (files_loop opts w d n i pre k) ++ tr_f) c =
      replay (trace (files_loop opts w d n i pre k)) c /\
    adds (trace (files_loop opts w d n i (pre ++ f :: post) k)) =
      adds (trace (files_loop opts w d n i pre k)) ++
      adds (trace (files_loop opts w d n (i + Z.of_nat (length pre) + 1) post
                     (S (clock (files_loop opts w d n i pre k))))).
Proof.
  intros Hst Hcur Hp.
  set (k1 := clock (files_loop opts w d n i pre k)) in *.
  set (i1 := i + Z.of_nat (length pre)).
  assert (Hafter : After (w_now w k1) (TimeAdd (fi_modtime fi) (optOldFilesAge opts)) = false).
  { unfold After, TimeAdd. apply Z.ltb_ge. exact Hcur. }
  pose proof (process_file_parse_error opts w d n i1 f fi k1 Hst Hafter Hp) as Hf.
  assert (Hout : output_only (trace (process_file opts w d n i1 f k1))).
  { rewrite Hf. unfold trace; simpl. apply output_only_app.
    - apply print_log_spec.
    - repeat constructor. }
  assert (Hsplit : trace (files_loop opts w d n i (pre ++ f :: post) k) =
                   trace (files_loop opts w d n i pre k) ++
                   trace (process_file opts w d n i1 f k1) ++
                   trace (files_loop opts w d n (i1 + 1) post (S k1))).
  { rewrite files_loop_split. fold k1 i1. rewrite Hf at 2. reflexivity. }
  eexists. split; [reflexivity|]. split; [exact Hsplit|]. split; [|split; [|split]].
  - rewrite Hf. unfold trace; simpl. rewrite elem_of_app. right. apply list_elem_of_here.
  - exact Hout.
  - rewrite replay_app. apply output_only_replay. exact Hout.
  - rewrite Hsplit, !adds_app, (output_only_adds _ Hout). reflexivity.
Qed.

(** A pass over three current files, the second of which does not
    parse, on a collector that holds the point of an earlier pass: the
    points of the first and of the third file are added, and the failure
    takes nothing away from what the first file has added. *)
Lemma C9_witness :
  a_name <$> adds (trace (files_loop ex_opts ex_world_three false 3 0
                            (["/d/a.prom"] ++ "/d/b.prom" :: ["/d/c.prom"]) O)) = ["x"; "y"] /\
  EvLog (LogErrorParsing 2 3 "/d/b.prom")
    ∈ trace (files_loop ex_opts ex_world_three false 3 0
               (["/d/a.prom"] ++ "/d/b.prom" :: ["/d/c.prom"]) O) /\
  p_value <$> points
    (replay (trace (files_loop ex_opts ex_world_three false 3 0 ["/d/a.prom"] O) ++
             trace (process_file ex_opts ex_world_three false 3 1 "/d/b.prom" 2%nat))
            ∅) = [1].
Proof.
  destruct (C9_parse_error_skips_only_that_file ex_opts ex_world_three false 3 0
              ["/d/a.prom"] "/d/b.prom" ["/d/c.prom"] ex_file O ∅)
    as (tr_f & Hf & Ht & Hlog & _ & Hkeep & Ha);
    [reflexivity | vm_compute; discriminate | reflexivity |].
  split; [|split].
  - rewrite Ha. vm_compute. reflexivity.
  - rewrite Ht, !elem_of_app. right. left. exact Hlog.
  - rewrite Hf in Hkeep.
    change (clock (files_loop ex_opts ex_world_three false 3 0 ["/d/a.prom"] O)) with 2%nat
      in Hkeep.
    change (0 + Z.of_nat (length ["/d/a.prom"])) with 1 in Hkeep.
    rewrite Hkeep. vm_compute. reflexivity.
Defined.

(** ** The collector: identities and ages *)

Lemma identities_of_points c :
  well_keyed c -> identity <$> points c = (map_to_list c).*1.
Proof.
  intros Hc. unfold points. rewrite <- list_fmap_compose.
  apply Forall_fmap_ext_1. apply Forall_forall. intros [id p] Hin.
  apply elem_of_map_to_list in Hin. simpl. symmetry. apply Hc. exact Hin.
Qed.

Lemma NoDup_identities_Snapshot maxAge now c :
  well_keyed c -> NoDup (identity <$> Snapshot maxAge now c).
Proof.
  intros Hc. apply sublist_NoDup with (identity <$> points c).
  - rewrite (identities_of_points c Hc). apply NoDup_fst_map_to_list.
  - apply fmap_sublist. unfold Snapshot. apply sublist_filter.
Qed.

Lemma elem_of_Snapshot maxAge now c p :
  p ∈ Snapshot maxAge now c <-> now - p_timestamp p <= maxAge /\ p ∈ points c.
Proof. unfold Snapshot. rewrite list_elem_of_filter. reflexivity. Qed.

(** C7. Whatever the calls made on the collector so far, the points of
    a snapshot have pairwise different identities.  When two points
    with the same identity are added one after the other, the collector
    is as if the first had not been added: it holds the second point
    under that identity, and a point of a snapshot with that identity
    is the second point. *)
Theorem C7_one_point_per_identity_last_add_wins tr a1 a2 maxAge now :
  identity (point_of a1) = identity (point_of a2) ->
  (forall tr', NoDup (identity <$> Snapshot maxAge now (replay tr' ∅))) /\
  replay (tr ++ [EvAdd a1; EvAdd a2]) ∅ = replay (tr ++ [EvAdd a2]) ∅ /\
  replay (tr ++ [EvAdd a1; EvAdd a2]) ∅ !! identity (point_of a2) = Some (point_of a2) /\
  (forall p, p ∈ Snapshot maxAge now (replay (tr ++ [EvAdd a1; EvAdd a2]) ∅) ->
             identity p = identity (point_of a2) -> p = point_of a2).
Proof.
  intros Hid.
  assert (Hlast : replay (tr ++ [EvAdd a1; EvAdd a2]) ∅ !! identity (point_of a2)
                  = Some (point_of a2)).
  { rewrite replay_app. simpl. unfold collector_Add at 1. apply lookup_insert_eq. }
  split; [|split; [|split]].
  - intros tr'. apply NoDup_identities_Snapshot, well_keyed_replay, well_keyed_empty.
  - rewrite !replay_app. simpl. unfold collector_Add. rewrite Hid.
    apply insert_insert_eq.
  - exact Hlast.
  - intros p Hp Hidp. apply elem_of_Snapshot in Hp. destruct Hp as [_ Hp].
    apply elem_of_points in Hp. destruct Hp as [id Hlook].
    assert (Hk : id = identity p).
    { eapply well_keyed_replay; [apply well_keyed_empty | exact Hlook]. }
    rewrite Hk, Hidp, Hlast in Hlook. congruence.
Qed.

Lemma C7_witness :
  p_value <$> Snapshot (25 * Hour) ex_t0 (replay ([] ++ [EvAdd (ex_call 1); EvAdd (ex_call 2)]) ∅)
    = [2] /\
  replay ([] ++ [EvAdd (ex_call 1); EvAdd (ex_call 2)]) ∅ !! identity (point_of (ex_call 2))
    = Some (point_of (ex_call 2)).
Proof.
  split; [vm_compute; reflexivity|].
  apply (C7_one_point_per_identity_last_add_wins [] (ex_call 1) (ex_call 2) (25 * Hour) ex_t0).
  reflexivity.
Defined.

(** C8. A point of the collector with timestamp [t] is in the snapshot
    taken at [now] if and only if [now - t <= maxAge].  The age is
    looked at when the snapshot is taken, against the stored timestamp:
    an [Add] stores its point whatever its timestamp, and a point that
    is in the snapshot at [now] is out of the snapshot at every later
    [now'] with [maxAge < now' - t], the collector being the same. *)
Theorem C8_snapshot_filters_by_age_at_read_time c maxAge now p :
  p ∈ points c ->
  (p ∈ Snapshot maxAge now c <-> now - p_timestamp p <= maxAge) /\
  (forall a c', collector_Add a c' !! identity (point_of a) = Some (point_of a)) /\
  (forall now', now - p_timestamp p <= maxAge -> maxAge < now' - p_timestamp p ->
     p ∈ Snapshot maxAge now c /\ p ∉ Snapshot maxAge now' c).
Proof.
  intros Hp. split; [|split].
  - rewrite elem_of_Snapshot. tauto.
  - intros a c'. unfold collector_Add. apply lookup_insert_eq.
  - intros now' Hin Hout. rewrite !elem_of_Snapshot. split; [tauto | lia].
Qed.

(** The point [x] of pass N, stamped an hour after [ex_t0]: it is in
    the snapshot taken then, and out of the snapshot taken 26 hours
    later from the same collector. *)
Lemma C8_witness :
  point_of (add_call ex_world_N O "x" (ex_family MetricType_GAUGE [ex_metric [] 1 None])
              (ex_metric [] 1 None) ∅ GaugeValue 1)
    ∈ Snapshot (25 * Hour) (ex_t0 + Hour) ex_collector_N /\
  point_of (add_call ex_world_N O "x" (ex_family MetricType_GAUGE [ex_metric [] 1 None])
              (ex_metric [] 1 None) ∅ GaugeValue 1)
    ∉ Snapshot (25 * Hour) (ex_t0 + 27 * Hour) ex_collector_N.
Proof.
  apply (C8_snapshot_filters_by_age_at_read_time ex_collector_N (25 * Hour) (ex_t0 + Hour)).
  - apply elem_of_points. exists ("x", ∅). vm_compute. reflexivity.
  - vm_compute. discriminate.
  - vm_compute. reflexivity.
Defined.

(** * More on the scan job *)

(** ** Effects *)

Lemma effects_app tr1 tr2 : effects (tr1 ++ tr2) = effects tr1 ++ effects tr2.
Proof. unfold effects. apply List.filter_app. Qed.

Lemma output_only_effects tr : output_only tr -> effects tr = [].
Proof.
  induction 1 as [|e tr He _ IH]; [reflexivity|].
  unfold effects in *. simpl. rewrite He. simpl. exact IH.
Qed.

Lemma adds_effects tr : adds (effects tr) = adds tr.
Proof.
  induction tr as [|e tr IH]; [reflexivity|].
  destruct e; simpl; rewrite ?IH; reflexivity.
Qed.

Lemma execs_effects tr : execs (effects tr) = execs tr.
Proof.
  induction tr as [|e tr IH]; [reflexivity|].
  destruct e; simpl; rewrite ?IH; reflexivity.
Qed.

Lemma replay_effects tr c : replay (effects tr) c = replay tr c.
Proof.
  revert c. induction tr as [|e tr IH]; intros c; [reflexivity|].
  destruct e; simpl; apply IH.
Qed.

Lemma same_effects_refl {A} (x : A * nat * list Event) : same_effects x x.
Proof. repeat split. Qed.

Lemma same_effects_sym {A} (x y : A * nat * list Event) :
  same_effects x y -> same_effects y x.
Proof. intros (H1 & H2 & H3). repeat split; symmetry; assumption. Qed.

Lemma same_effects_trans {A} (x y z : A * nat * list Event) :
  same_effects x y -> same_effects y z -> same_effects x z.
Proof.
  intros (H1 & H2 & H3) (H1' & H2' & H3').
  repeat split; etransitivity; eassumption.
Qed.

Lemma same_effects_bind {A B} (c1 c2 : M A) (f1 f2 : A -> M B) k :
  same_effects (c1 k) (c2 k) ->
  (forall a k', same_effects (f1 a k') (f2 a k')) ->
  same_effects (bind c1 f1 k) (bind c2 f2 k).
Proof.
  intros (Hr & Hc & He) Hf. unfold same_effects.
  rewrite !result_bind, !clock_bind, !trace_bind, !effects_app.
  rewrite Hr, Hc, He.
  destruct (Hf (result (c2 k)) (clock (c2 k))) as (Hr' & Hc' & He').
  rewrite Hr', Hc', He'. repeat split.
Qed.

Lemma logging_log msg : logging (log msg).
Proof. intros k. split; [reflexivity | repeat constructor]. Qed.

Lemma logging_ret : logging (ret tt).
Proof. intros k. split; [reflexivity | constructor]. Qed.

Lemma logging_when b c : logging c -> logging (when b c).
Proof. intros H. destruct b; [exact H | apply logging_ret]. Qed.

Lemma logging_seq c1 c2 : logging c1 -> logging c2 -> logging (run c1 in c2).
Proof.
  intros H1 H2 k. rewrite clock_bind, trace_bind.
  destruct (H1 k) as [Hk Ht]. rewrite Hk. destruct (H2 k) as [Hk' Ht'].
  split; [exact Hk' | apply output_only_app; assumption].
Qed.

Lemma same_effects_logging c1 c2 k :
  logging c1 -> logging c2 -> same_effects (c1 k) (c2 k).
Proof.
  intros H1 H2. destruct (H1 k) as [Hk1 Ht1]. destruct (H2 k) as [Hk2 Ht2].
  repeat split.
  - destruct (result (c1 k)), (result (c2 k)). reflexivity.
  - rewrite Hk1, Hk2. reflexivity.
  - rewrite (output_only_effects _ Ht1), (output_only_effects _ Ht2). reflexivity.
Qed.

Create HintDb scan.
#[local] Hint Resolve logging_log logging_ret logging_when logging_seq : scan.

(** ** Debug mode and the file counters change the log only *)

Lemma label_loop_same d ls labels k :
  same_effects (label_loop d ls labels k) (label_loop false ls labels k).
Proof.
  revert labels k. induction ls as [|l ls IH]; intros labels k.
  - apply same_effects_refl.
  - simpl label_loop. apply same_effects_bind; [|intros ? ?; apply IH].
    apply same_effects_logging; auto 10 with scan.
Qed.

Lemma handle_timestamp_same w d ts k :
  same_effects (handle_timestamp w d ts k) (handle_timestamp w false ts k).
Proof.
  unfold handle_timestamp. destruct (ts <=? 0); [|apply same_effects_refl].
  apply same_effects_bind; [apply same_effects_refl|]. intros now k'.
  apply same_effects_bind; [|intros ? ?; apply same_effects_refl].
  apply same_effects_logging; auto 10 with scan.
Qed.

Lemma metric_body_same w d name mf m labels k :
  same_effects (metric_body w d name mf m labels k) (metric_body w false name mf m labels k).
Proof.
  unfold metric_body.
  destruct (switch_type (mf_type mf) m) as [[mt v]|]; [|apply same_effects_refl].
  apply same_effects_bind; [apply same_effects_logging; auto 10 with scan|]. intros _ k1.
  apply same_effects_bind; [apply handle_timestamp_same|]. intros ts k2.
  apply same_effects_bind; [apply label_loop_same|]. intros labels' k3.
  apply same_effects_bind; [apply same_effects_refl|]. intros _ k4.
  apply same_effects_bind; [|intros ? ?; apply same_effects_refl].
  apply same_effects_logging; auto 10 with scan.
Qed.

Lemma metric_loop_same w d name mf ms labels cnt k :
  same_effects (metric_loop w d name mf ms labels cnt k)
               (metric_loop w false name mf ms labels cnt k).
Proof.
  revert labels cnt k. induction ms as [|m ms IH]; intros labels cnt k.
  - apply same_effects_refl.
  - simpl metric_loop. apply same_effects_bind; [apply metric_body_same|].
    intros [labels'|] k'; [apply IH | apply same_effects_refl].
Qed.

Lemma family_loop_same w d mfs cnt k :
  same_effects (family_loop w d mfs cnt k) (family_loop w false mfs cnt k).
Proof.
  revert cnt k. induction mfs as [|[name mf] mfs IH]; intros cnt k.
  - apply same_effects_refl.
  - simpl family_loop.
    apply same_effects_bind; [apply same_effects_logging; auto 10 with scan|]. intros _ k1.
    apply same_effects_bind; [apply metric_loop_same|]. intros r k2. apply IH.
Qed.

Lemma old_file_same opts w n i n' i' f k :
  same_effects (old_file opts w n i f k) (old_file opts w n' i' f k).
Proof.
  unfold old_file.
  apply same_effects_bind; [apply same_effects_logging; auto 10 with scan|]. intros _ k1.
  apply same_effects_bind; [apply same_effects_logging; auto 10 with scan|]. intros _ k2.
  apply same_effects_bind; [apply same_effects_refl|]. intros _ k3.
  apply same_effects_bind; [apply same_effects_logging; auto 10 with scan|]. intros _ k4.
  apply same_effects_refl.
Qed.

Lemma process_file_same opts w d n i d' n' i' f k :
  same_effects (process_file opts w d n i f k) (process_file opts w d' n' i' f k).
Proof.
  unfold process_file.
  apply same_effects_bind; [apply same_effects_logging; auto 10 with scan|]. intros _ k1.
  destruct (w_stat w f) as [fi|]; [|apply same_effects_logging; auto 10 with scan].
  apply same_effects_bind; [apply same_effects_refl|]. intros now k2.
  destruct (After now _); [apply old_file_same|].
  destruct (w_parseMF w f) as [mfs|]; [|apply same_effects_logging; auto 10 with scan].
  apply same_effects_bind.
  - eapply same_effects_trans; [apply family_loop_same|].
    apply same_effects_sym, family_loop_same.
  - intros cnt k3. apply same_effects_logging; auto 10 with scan.
Qed.

Lemma files_loop_same opts w d n i d' n' i' files k :
  same_effects (files_loop opts w d n i files k) (files_loop opts w d' n' i' files k).
Proof.
  revert i i' k. induction files as [|f rest IH]; intros i i' k.
  - apply same_effects_refl.
  - simpl files_loop. apply same_effects_bind; [apply process_file_same|].
    intros _ k'. apply IH.
Qed.

(** X1. What the loop over the files does apart from logging does
    not depend on debug mode, nor on the counters [i] and [n] used in
    the log lines: the clock readings taken, the collector calls and the
    external commands, in their order, are the same. *)
Theorem X1_debug_mode_changes_log_only opts w d n i files k :
  clock (files_loop opts w d n i files k) = clock (files_loop opts w false 0 0 files k) /\
  effects (trace (files_loop opts w d n i files k)) =
    effects (trace (files_loop opts w false 0 0 files k)) /\
  adds (trace (files_loop opts w d n i files k)) =
    adds (trace (files_loop opts w false 0 0 files k)) /\
  execs (trace (files_loop opts w d n i files k)) =
    execs (trace (files_loop opts w false 0 0 files k)).
Proof.
  destruct (files_loop_same opts w d n i false 0 0 files k) as (_ & Hc & He).
  split; [exact Hc|]. split; [exact He|].
  rewrite <- (adds_effects (trace (files_loop opts w d n i files k))).
  rewrite <- (execs_effects (trace (files_loop opts w d n i files k))).
  rewrite He, adds_effects, execs_effects. split; reflexivity.
Qed.

(** ** The size of the log *)



Lemma metric_events_ret {A} (a : A) : metric_events (ret a).
Proof. intros k. constructor. Qed.

Lemma metric_events_bind {A B} (c : M A) (f : A -> M B) :
  metric_events c -> (forall a, metric_events (f a)) -> metric_events (bind c f).
Proof.
  intros Hc Hf k. rewrite trace_bind. apply Forall_app; split; [apply Hc | apply Hf].
Qed.

Lemma metric_events_when b (c : M unit) : metric_events c -> metric_events (when b c).
Proof. intros H. destruct b; [exact H | apply metric_events_ret]. Qed.

Lemma metric_events_emit e : is_metric_event e = true -> metric_events (emit e).
Proof. intros H k. repeat constructor. exact H. Qed.

Ltac metric_events_tac :=
  repeat first
    [ apply metric_events_ret
    | apply metric_events_when
    | apply metric_events_emit; reflexivity
    | apply metric_events_bind; [|intros ?] ].

Lemma label_loop_metric_events d ls labels : metric_events (label_loop d ls labels).
Proof.
  revert labels. induction ls as [|l ls IH]; intros labels; [apply metric_events_ret|].
  simpl label_loop. apply metric_events_bind; [|intros _; apply IH].
  unfold log. metric_events_tac.
Qed.

Lemma handle_timestamp_metric_events w d ts : metric_events (handle_timestamp w d ts).
Proof.
  unfold handle_timestamp. destruct (ts <=? 0); [|apply metric_events_ret].
  apply metric_events_bind; [intros k; constructor|]. intros now.
  unfold log. metric_events_tac.
Qed.

Lemma metric_body_metric_events w d name mf m labels :
  metric_events (metric_body w d name mf m labels).
Proof.
  unfold metric_body.
  destruct (switch_type (mf_type mf) m) as [[mt v]|]; [|apply metric_events_ret].
  apply metric_events_bind; [unfold log; metric_events_tac|]. intros _.
  apply metric_events_bind; [apply handle_timestamp_metric_events|]. intros ts.
  apply metric_events_bind; [apply label_loop_metric_events|]. intros labels'.
  unfold log. metric_events_tac.
Qed.

Lemma metric_loop_metric_events w d name mf ms labels cnt :
  metric_events (metric_loop w d name mf ms labels cnt).
Proof.
  revert labels cnt. induction ms as [|m ms IH]; intros labels cnt;
    [apply metric_events_ret|].
  simpl metric_loop. apply metric_events_bind; [apply metric_body_metric_events|].
  intros [labels'|]; [apply IH | apply metric_events_ret].
Qed.

Lemma family_loop_metric_events w d mfs cnt : metric_events (family_loop w d mfs cnt).
Proof.
  revert cnt. induction mfs as [|[name mf] mfs IH]; intros cnt;
    [apply metric_events_ret|].
  simpl family_loop. apply metric_events_bind; [unfold log; metric_events_tac|]. intros _.
  apply metric_events_bind; [apply metric_loop_metric_events | intros r; apply IH].
Qed.





(** ** From decoded families to collector calls *)

Lemma switch_type_kind t m :
  switch_type t m =
    match kind_of t with
    | Some vt => Some (vt, value_of t m)
    | None => None
    end.
Proof. destruct t; reflexivity. Qed.

Lemma kind_of_supported t : supported t = match kind_of t with Some _ => true | None => false end.
Proof. destruct t; reflexivity. Qed.

Lemma effects_around tr1 a tr2 :
  output_only tr1 -> output_only tr2 -> effects (tr1 ++ EvAdd a :: tr2) = [EvAdd a].
Proof.
  intros H1 H2. rewrite effects_app, (output_only_effects _ H1).
  change (effects (EvAdd a :: tr2)) with (EvAdd a :: effects tr2).
  rewrite (output_only_effects _ H2). reflexivity.
Qed.

Lemma metric_loop_calls w d name mf ms labels cnt k vt :
  kind_of (mf_type mf) = Some vt ->
  call_data <$> adds (trace (metric_loop w d name mf ms labels cnt k)) =
    map (fun m => (name, vt, value_of (mf_type mf) m, mf_help mf)) ms /\
  snd (result (metric_loop w d name mf ms labels cnt k)) = cnt + Z.of_nat (length ms) /\
  effects (trace (metric_loop w d name mf ms labels cnt k)) =
    EvAdd <$> adds (trace (metric_loop w d name mf ms labels cnt k)) /\
  Forall (fun a => a_extra a = 0) (adds (trace (metric_loop w d name mf ms labels cnt k))).
Proof.
  intros Hk. revert labels cnt k. induction ms as [|m ms IH]; intros labels cnt k.
  - simpl. repeat split; [lia | constructor].
  - assert (Hsw : switch_type (mf_type mf) m = Some (vt, value_of (mf_type mf) m))
      by (rewrite switch_type_kind, Hk; reflexivity).
    destruct (metric_body_supported w d name mf m labels k _ _ Hsw)
      as (tr1 & tr2 & Hb & H1 & H2).
    simpl metric_loop. rewrite result_bind, trace_bind, Hb.
    destruct (IH (write_labels (m_label m) labels) (cnt + 1)
                 (if GetTimestampMs m <=? 0 then S k else k)) as (IH1 & IH2 & IH3 & IH4).
    unfold result, clock, trace in *; simpl fst in *; simpl snd in *.
    rewrite adds_app, effects_app.
    destruct (adds_around tr1 (add_call w k name mf m labels vt (value_of (mf_type mf) m))
                tr2 H1 H2) as [-> _].
    rewrite (effects_around _ _ _ H1 H2).
    split; [|split; [|split]].
    + simpl. f_equal. exact IH1.
    + rewrite IH2. simpl length. lia.
    + simpl. f_equal. exact IH3.
    + simpl. constructor; [reflexivity | exact IH4].
Qed.

Lemma family_loop_calls w d mfs cnt k :
  call_data <$> adds (trace (family_loop w d mfs cnt k)) = flat_map family_points mfs /\
  result (family_loop w d mfs cnt k) =
    cnt + Z.of_nat (length (adds (trace (family_loop w d mfs cnt k)))) /\
  effects (trace (family_loop w d mfs cnt k)) =
    EvAdd <$> adds (trace (family_loop w d mfs cnt k)) /\
  Forall (fun a => a_extra a = 0) (adds (trace (family_loop w d mfs cnt k))).
Proof.
  revert cnt k. induction mfs as [|[name mf] mfs IH]; intros cnt k.
  - unfold result; simpl. repeat split; [lia | constructor].
  - simpl family_loop. rewrite !result_bind, !trace_bind.
    set (pre := when d _).
    assert (Hpre : logging pre) by (subst pre; auto 10 with scan).
    destruct (Hpre k) as [Hpk Hpt]. rewrite Hpk.
    rewrite !adds_app, !effects_app, (output_only_adds _ Hpt), (output_only_effects _ Hpt).
    simpl app. simpl flat_map. unfold family_points at 1. simpl fst; simpl snd.
    set (r := metric_loop w d name mf (mf_metric mf) ∅ cnt k).
    destruct (IH (snd (result r)) (clock r)) as (IH1 & IH2 & IH3 & IH4).
    destruct (kind_of (mf_type mf)) as [vt|] eqn:Hk.
    + destruct (metric_loop_calls w d name mf (mf_metric mf) ∅ cnt k vt Hk)
        as (M1 & M2 & M3 & M4). fold r in M1, M2, M3, M4.
      split; [|split; [|split]].
      * rewrite fmap_app, M1, IH1. reflexivity.
      * rewrite IH2, M2, length_app.
        apply (f_equal (@length _)) in M1. rewrite length_fmap, length_map in M1.
        rewrite <- M1. lia.
      * rewrite M3, IH3, fmap_app. reflexivity.
      * apply Forall_app; split; assumption.
    + assert (Hr : r = ((∅, cnt), k, [])).
      { subst r. apply metric_loop_unsupported. rewrite kind_of_supported, Hk. reflexivity. }
      rewrite Hr in *. unfold result, clock, trace in *; simpl fst in *; simpl snd in *.
      simpl app. repeat split; assumption.
Qed.

(** X3. A current file that parses.  Let the file [f] be there, not
    older than the threshold when its turn comes (a file whose age is
    exactly the threshold is current) and decode to the families [mfs].
    Then the loop body makes one [collector.Add] call per metric of every
    family of type Gauge, Counter or Untyped, family by family in the
    order the [range] over the decoded map visits the families (the
    order of [mfs], which is not that of the file) and, within a family,
    in the order of its metrics,
    with the family's name and help text, the kind of the family's type
    and the metric's value for that type (0 if that field is nil), each
    with 0 as sixth argument; it makes no other collector call, runs no
    command, and the number of points it logs, when it logs one, is the
    number of calls made. *)
Theorem X3_current_file_adds_one_point_per_metric opts w d n i f fi mfs k :
  w_stat w f = Some fi ->
  w_now w k <= fi_modtime fi + optOldFilesAge opts ->
  w_parseMF w f = Some mfs ->
  call_data <$> adds (trace (process_file opts w d n i f k)) = flat_map family_points mfs /\
  Forall (fun a => a_extra a = 0) (adds (trace (process_file opts w d n i f k))) /\
  effects (trace (process_file opts w d n i f k)) =
    EvAdd <$> adds (trace (process_file opts w d n i f k)) /\
  execs (trace (process_file opts w d n i f k)) = [] /\
  (forall cnt, EvLog (LogDataPoints (i + 1) n cnt) ∈ trace (process_file opts w d n i f k) ->
     cnt = Z.of_nat (length (adds (trace (process_file opts w d n i f k))))).
Proof.
  intros Hst Hcur Hp.
  assert (Hafter : After (w_now w k) (TimeAdd (fi_modtime fi) (optOldFilesAge opts)) = false).
  { unfold After, TimeAdd. apply Z.ltb_ge. exact Hcur. }
  unfold process_file. rewrite Hst, Hp.
  set (printIt := d || (i <? 5) || (n - 5 <=? i)).
  destruct (print_log_spec printIt (LogProcessing (i + 1) n f) k) as [Hk Ht].
  rewrite !trace_bind, Hk.
  change (result (time_Now w k)) with (w_now w k).
  change (clock (time_Now w k)) with (S k).
  change (trace (time_Now w k)) with (@nil Event).
  rewrite Hafter. rewrite trace_bind. simpl app.
  set (r := family_loop w d mfs 0 (S k)).
  destruct (family_loop_calls w d mfs 0 (S k)) as (F1 & F2 & F3 & F4).
  fold r in F1, F2, F3, F4.
  destruct (print_log_spec printIt (LogDataPoints (i + 1) n (result r)) (clock r)) as [_ Ht'].
  assert (Hadds : adds (trace (when printIt (log (LogProcessing (i + 1) n f)) k) ++
                        trace r ++
                        trace (when printIt (log (LogDataPoints (i + 1) n (result r))) (clock r)))
                  = adds (trace r)).
  { rewrite !adds_app, (output_only_adds _ Ht), (output_only_adds _ Ht'), app_nil_r.
    reflexivity. }
  rewrite Hadds.
  split; [exact F1|]. split; [exact F4|]. split; [|split].
  - rewrite !effects_app, (output_only_effects _ Ht), (output_only_effects _ Ht'), app_nil_r.
    exact F3.
  - rewrite <- execs_effects, !effects_app, (output_only_effects _ Ht),
      (output_only_effects _ Ht'), app_nil_r, F3.
    clear. induction (adds (trace r)) as [|a l IH]; [reflexivity | exact IH].
  - intros cnt Hin. rewrite !elem_of_app in Hin. destruct Hin as [Hin | [Hin | Hin]].
    + destruct printIt; simpl in Hin.
      * apply list_elem_of_singleton in Hin. discriminate.
      * apply elem_of_nil in Hin. contradiction.
    + exfalso. pose proof (family_loop_metric_events w d mfs 0 (S k)) as Hev.
      fold r in Hev. rewrite Forall_forall in Hev. apply Hev in Hin. discriminate.
    + rewrite F2, Z.add_0_l in Hin. destruct printIt; simpl in Hin.
      * apply list_elem_of_singleton in Hin. congruence.
      * apply elem_of_nil in Hin. contradiction.
Qed.

(** ** Label sets *)

Lemma write_labels_union ls (labels : gmap string string) :
  write_labels ls labels = write_labels ls ∅ ∪ labels.
Proof.
  revert labels. induction ls as [|l ls IH]; intros labels.
  - simpl. rewrite (left_id_L ∅ (∪)). reflexivity.
  - simpl. rewrite (IH (<[lp_name l := lp_value l]> labels)).
    rewrite (IH (<[lp_name l := lp_value l]> ∅)).
    rewrite <- (assoc_L (∪)). f_equal.
    rewrite insert_union_singleton_l, insert_empty. reflexivity.
Qed.

Lemma union_covered (A B : gmap string string) : dom B ⊆ dom A -> A ∪ B = A.
Proof.
  intros Hsub. apply map_eq. intros i. rewrite lookup_union.
  destruct (A !! i) as [x|] eqn:EA; destruct (B !! i) as [y|] eqn:EB; try reflexivity.
  exfalso. assert (Hi : i ∈ dom A) by (apply Hsub; eapply elem_of_dom_2; exact EB).
  apply elem_of_dom in Hi. destruct Hi as [x Hx]. congruence.
Qed.

Lemma accumulated_labels_uniform ms (labels : gmap string string) (D : gset string) :
  (forall m, m ∈ ms -> dom (labels_of m) = D) ->
  dom labels ⊆ D ->
  accumulated_labels ms labels = labels_of <$> ms.
Proof.
  revert labels. induction ms as [|m ms IH]; intros labels HD Hsub; [reflexivity|].
  assert (Hm : write_labels (m_label m) labels = labels_of m).
  { rewrite write_labels_union. apply union_covered.
    fold (labels_of m). rewrite (HD m) by apply list_elem_of_here. exact Hsub. }
  simpl. rewrite Hm. f_equal. apply IH.
  - intros m' Hin. apply HD. apply list_elem_of_further. exact Hin.
  - rewrite (HD m) by apply list_elem_of_here. reflexivity.
Qed.

Lemma family_loop_labels w d mfs cnt k :
  a_labels <$> adds (trace (family_loop w d mfs cnt k)) = flat_map family_labels mfs.
Proof.
  revert cnt k. induction mfs as [|[name mf] mfs IH]; intros cnt k; [reflexivity|].
  simpl family_loop. rewrite !trace_bind.
  set (pre := when d _).
  assert (Hpre : logging pre) by (subst pre; auto 10 with scan).
  destruct (Hpre k) as [Hpk Hpt]. rewrite Hpk.
  rewrite !adds_app, (output_only_adds _ Hpt). simpl app.
  rewrite fmap_app, IH. simpl flat_map. f_equal.
  unfold family_labels. simpl snd.
  destruct (supported (mf_type mf)) eqn:Hs.
  - apply metric_loop_labels. exact Hs.
  - rewrite metric_loop_unsupported by exact Hs. reflexivity.
Qed.

(** X4. The map of labels is made anew for every family: the label
    sets of the calls made for the families of a file are, family by
    family, those that the metrics of that family alone write into an
    empty map one after the other.  No label of one family, or of one
    file, reaches a point of another, and the call for the first metric
    of a family carries exactly the labels of that metric. *)
Theorem X4_labels_start_empty_for_every_family w d mfs cnt k :
  a_labels <$> adds (trace (family_loop w d mfs cnt k)) = flat_map family_labels mfs /\
  (forall name mf m ms,
     supported (mf_type mf) = true -> mf_metric mf = m :: ms ->
     family_labels (name, mf) = labels_of m :: accumulated_labels ms (labels_of m)).
Proof.
  split; [apply family_loop_labels|].
  intros name mf m ms Hs Hms. unfold family_labels. simpl snd. rewrite Hs, Hms.
  reflexivity.
Qed.

(** X5. When the metrics of every family have the same label names
    (as the series of one metric usually have), every call carries
    exactly the labels of its own metric. *)
Theorem X5_uniform_label_names_give_exact_labels w d mfs cnt k :
  (forall name mf, (name, mf) ∈ mfs -> uniform_labels mf) ->
  a_labels <$> adds (trace (family_loop w d mfs cnt k)) =
    flat_map (fun nmf => if supported (mf_type (snd nmf))
                         then labels_of <$> mf_metric (snd nmf) else []) mfs.
Proof.
  intros Hu. rewrite family_loop_labels.
  induction mfs as [|[name mf] mfs IH]; [reflexivity|].
  simpl flat_map. rewrite IH.
  - f_equal. unfold family_labels. simpl snd.
    destruct (supported (mf_type mf)); [|reflexivity].
    assert (Hmf : uniform_labels mf) by (apply (Hu name); apply list_elem_of_here).
    unfold uniform_labels in Hmf.
    destruct (mf_metric mf) as [|m0 ms] eqn:Hms; [reflexivity|].
    apply (accumulated_labels_uniform _ ∅ (dom (labels_of m0))).
    + intros m Hin. apply Hmf; [exact Hin | apply list_elem_of_here].
    + rewrite dom_empty_L. apply empty_subseteq.
  - intros name' mf' Hin. apply (Hu name'). apply list_elem_of_further. exact Hin.
Qed.

(** ** Strings *)

Lemma length_append (s1 s2 : string) :
  String.length (s1 +:+ s2) = (String.length s1 + String.length s2)%nat.
Proof.
  induction s1 as [|c s1 IH]; [reflexivity|].
  change (String c s1 +:+ s2) with (String c (s1 +:+ s2)). simpl. rewrite IH. reflexivity.
Qed.

Lemma substring_all (s : string) : substring 0 (String.length s) s = s.
Proof. induction s as [|c s IH]; [reflexivity|]. simpl. rewrite IH. reflexivity. Qed.

Lemma substring_append (p s : string) k :
  substring (String.length p) k (p +:+ s) = substring 0 k s.
Proof.
  induction p as [|c p IH]; [reflexivity|].
  change (String c p +:+ s) with (String c (p +:+ s)). simpl. exact IH.
Qed.

Lemma substring_split (s : string) m :
  (m <= String.length s)%nat ->
  s = substring 0 m s +:+ substring m (String.length s - m) s.
Proof.
  revert m. induction s as [|c s IH]; intros m Hm.
  - destruct m; reflexivity.
  - destruct m as [|m].
    + simpl. rewrite substring_all. reflexivity.
    + simpl in Hm. simpl String.length. simpl substring.
      change (String c (substring 0 m s) +:+ substring m (String.length s - m) s)
        with (String c (substring 0 m s +:+ substring m (String.length s - m) s)).
      rewrite <- IH by lia. reflexivity.
Qed.

(** [HasSuffix] holds of the strings that end in the suffix. *)
Lemma HasSuffix_spec (s suffix : string) :
  HasSuffix s suffix = true <-> exists stem, s = stem +:+ suffix.
Proof.
  unfold HasSuffix. rewrite andb_true_iff, Nat.leb_le, String.eqb_eq. split.
  - intros [Hle Hsub]. exists (substring 0 (String.length s - String.length suffix) s).
    pose proof (substring_split s (String.length s - String.length suffix)) as E.
    replace (String.length s - (String.length s - String.length suffix))%nat
      with (String.length suffix) in E by lia.
    rewrite Hsub in E. apply E. lia.
  - intros [stem ->]. rewrite length_append. split; [lia|].
    replace (String.length stem + String.length suffix - String.length suffix)%nat
      with (String.length stem) by lia.
    rewrite substring_append. apply substring_all.
Qed.

(** ** The files of a directory *)

Lemma entries_loop_omap filepath entries files :
  entries_loop filepath entries files = files ++ omap (prom_file filepath) entries.
Proof.
  revert files. induction entries as [|[fi|] entries IH]; intros files.
  - simpl. rewrite app_nil_r. reflexivity.
  - simpl entries_loop. simpl omap. unfold prom_file at 1.
    destruct (fi_isdir fi); simpl; [apply IH|].
    destruct (fi_regular fi && HasSuffix (fi_name fi) ".prom"); simpl.
    + rewrite IH, <- app_assoc. reflexivity.
    + apply IH.
  - simpl. apply IH.
Qed.

(** X6. The files of a directory: the list holds [dir/name] for the
    entries, in the order of the directory, whose [Info()] succeeds and
    that are regular files, not directories, with a name that ends in
    [.prom], and nothing else.  (There is no recursion into
    sub-directories, and a name such as [x.prom.bak] is left out.) *)
Theorem X6_directory_files_are_regular_prom_files filepath entries :
  entries_loop filepath entries [] = omap (prom_file filepath) entries /\
  (forall f, f ∈ entries_loop filepath entries [] <->
     exists fi stem, Some fi ∈ entries /\ fi_isdir fi = false /\ fi_regular fi = true /\
                     fi_name fi = stem +:+ ".prom" /\ f = filepath +:+ "/" +:+ fi_name fi).
Proof.
  split; [apply entries_loop_omap|].
  intros f. rewrite entries_loop_omap. simpl app. rewrite list_elem_of_omap. split.
  - intros ([fi|] & Hin & Hf); [|discriminate]. unfold prom_file in Hf.
    destruct (fi_isdir fi) eqn:Hd; [discriminate|].
    destruct (fi_regular fi) eqn:Hr; [|discriminate].
    destruct (HasSuffix (fi_name fi) ".prom") eqn:Hs; [|discriminate].
    simpl in Hf. apply HasSuffix_spec in Hs. destruct Hs as [stem Hstem].
    exists fi, stem. repeat split; try assumption. congruence.
  - intros (fi & stem & Hin & Hd & Hr & Hn & ->). exists (Some fi). split; [exact Hin|].
    unfold prom_file. rewrite Hd, Hr.
    assert (Hs : HasSuffix (fi_name fi) ".prom" = true)
      by (apply HasSuffix_spec; exists stem; exact Hn).
    rewrite Hs. reflexivity.
Qed.

(** ** The command of an old file *)

(** X7. The command run for an old file.  For a template
    [pre{}post] with no other brace, the command is [pre], the path of
    the file as it is (nothing in it is quoted or replaced, not even a
    placeholder), and [post], and it is the one command of the file. *)
Theorem X7_command_is_template_with_path opts w d n i f fi k pre post :
  w_stat w f = Some fi ->
  fi_modtime fi + optOldFilesAge opts < w_now w k ->
  optOldFilesExternalCmd opts = pre +:+ "{}" +:+ post ->
  brace_free pre = true ->
  brace_free post = true ->
  execs (trace (process_file opts w d n i f k)) = [pre +:+ f +:+ post].
Proof.
  intros Hst Hold Hcmd Hpre Hpost.
  assert (Hafter : After (w_now w k) (TimeAdd (fi_modtime fi) (optOldFilesAge opts)) = true).
  { unfold After, TimeAdd. apply Z.ltb_lt. exact Hold. }
  destruct (process_file_old opts w d n i f fi k Hst Hafter) as (_ & _ & _ & He).
  rewrite He, Hcmd, ReplaceAll_placeholder_first by exact Hpre.
  rewrite ReplaceAll_placeholder_brace_free by exact Hpost. reflexivity.
Qed.

(** X8. A template without a brace has no placeholder: the command
    run for an old file is the template itself, the same for every
    file. *)
Theorem X8_template_without_placeholder opts w d n i f fi k :
  w_stat w f = Some fi ->
  fi_modtime fi + optOldFilesAge opts < w_now w k ->
  brace_free (optOldFilesExternalCmd opts) = true ->
  execs (trace (process_file opts w d n i f k)) = [optOldFilesExternalCmd opts].
Proof.
  intros Hst Hold Hfree.
  assert (Hafter : After (w_now w k) (TimeAdd (fi_modtime fi) (optOldFilesAge opts)) = true).
  { unfold After, TimeAdd. apply Z.ltb_lt. exact Hold. }
  destruct (process_file_old opts w d n i f fi k Hst Hafter) as (_ & _ & _ & He).
  rewrite He, ReplaceAll_placeholder_brace_free by exact Hfree. reflexivity.
Qed.

(** ** The shape of a pass *)

Lemma sleeps_app tr1 tr2 : sleeps (tr1 ++ tr2) = sleeps tr1 ++ sleeps tr2.
Proof.
  induction tr1 as [|e tr1 IH]; [reflexivity|].
  destruct e; simpl; rewrite IH; reflexivity.
Qed.

Lemma clears_app tr1 tr2 : clears (tr1 ++ tr2) = (clears tr1 + clears tr2)%nat.
Proof.
  induction tr1 as [|e tr1 IH]; [reflexivity|].
  destruct e; simpl; rewrite IH; reflexivity.
Qed.

Lemma body_event_quiet P tr :
  Forall (body_event P) tr ->
  sleeps tr = [] /\ clears tr = O /\ collector_calls tr = EvAdd <$> adds tr.
Proof.
  induction 1 as [|e tr He _ (IH1 & IH2 & IH3)]; [repeat split|].
  destruct e; simpl in *; try contradiction; repeat split; try assumption.
  unfold collector_calls in *. simpl. f_equal. exact IH3.
Qed.

Lemma output_only_quiet tr : output_only tr -> sleeps tr = [] /\ clears tr = O.
Proof.
  intros H. apply (output_only_body (fun _ => True)) in H.
  destruct (body_event_quiet _ _ H) as (H1 & H2 & _). split; assumption.
Qed.

(** X9. A pass that reaches the end of the loop body (it finds the
    configured path and, for a directory, reads it) calls
    [collector.Clear] once, before every [collector.Add] call, and
    sleeps once, for the scan interval, as its last step.  So the
    collector after the pass holds the points added in this pass and
    nothing of what it held before: the sets of points of two passes are
    never merged. *)
Theorem X9_pass_clears_once_then_adds_then_sleeps opts w k c0 :
  result (scan_pass opts w k) = Next ->
  collector_calls (trace (scan_pass opts w k)) =
    EvClear :: (EvAdd <$> adds (trace (scan_pass opts w k))) /\
  clears (trace (scan_pass opts w k)) = 1%nat /\
  sleeps (trace (scan_pass opts w k)) = [optScanInterval opts] /\
  last (trace (scan_pass opts w k)) = Some (EvSleep (optScanInterval opts)) /\
  replay (trace (scan_pass opts w k)) c0 = fill (adds (trace (scan_pass opts w k))) ∅.
Proof.
  intros Hnext.
  destruct (scan_pass_shape opts w k)
    as [[Hb _] | [_ (pre & body & files & Ht & Hpre & Hbody)]]; [congruence|].
  destruct (output_only_quiet _ Hpre) as [Hps Hpc].
  destruct (body_event_quiet _ _ Hbody) as (Hbs & Hbc & Hbcalls).
  rewrite Ht.
  rewrite collector_calls_app, adds_app, clears_app, sleeps_app,
    (output_only_calls _ Hpre), (output_only_adds _ Hpre), Hps, Hpc.
  change (collector_calls (EvClear :: body ++ [EvSleep (optScanInterval opts)]))
    with (EvClear :: collector_calls (body ++ [EvSleep (optScanInterval opts)])).
  change (adds (EvClear :: body ++ [EvSleep (optScanInterval opts)]))
    with (adds (body ++ [EvSleep (optScanInterval opts)])).
  change (clears (EvClear :: body ++ [EvSleep (optScanInterval opts)]))
    with (S (clears (body ++ [EvSleep (optScanInterval opts)]))).
  change (sleeps (EvClear :: body ++ [EvSleep (optScanInterval opts)]))
    with (sleeps (body ++ [EvSleep (optScanInterval opts)])).
  rewrite collector_calls_app, adds_app, clears_app, sleeps_app, Hbcalls, Hbs, Hbc.
  simpl. rewrite !app_nil_r.
  split; [reflexivity|]. split; [reflexivity|]. split; [reflexivity|]. split.
  - change (EvClear :: body ++ [EvSleep (optScanInterval opts)])
      with ((EvClear :: body) ++ [EvSleep (optScanInterval opts)]).
    rewrite app_assoc. apply last_snoc.
  - rewrite replay_app. rewrite (output_only_replay _ _ Hpre). simpl.
    unfold collector_Clear.
    rewrite replay_fill.
    + rewrite adds_app. simpl. rewrite app_nil_r. reflexivity.
    + rewrite elem_of_app. intros [Hin | Hin].
      * exact (body_event_no_clear _ _ Hbody Hin).
      * apply list_elem_of_singleton in Hin. discriminate.
Qed.

Lemma X9_witness :
  collector_calls (trace (scan_pass ex_opts ex_world_N1 O)) =
    EvClear :: (EvAdd <$> adds (trace (scan_pass ex_opts ex_world_N1 O))) /\
  length (adds (trace (scan_pass ex_opts ex_world_N1 O))) = 2%nat.
Proof.
  split; [|vm_compute; reflexivity].
  apply (X9_pass_clears_once_then_adds_then_sleeps ex_opts ex_world_N1 O ∅).
  vm_compute. reflexivity.
Defined.

(** X10. A pass breaks out of the loop exactly when [os.Stat] of the
    configured path fails, or the path is a directory and [os.ReadDir]
    fails.  Such a pass calls neither [collector.Clear] nor
    [collector.Add], runs no command and does not sleep: the collector
    keeps the points of the pass before. *)
Theorem X10_pass_breaks_on_stat_or_readdir_error opts w k :
  (result (scan_pass opts w k) = Break <->
     w_stat w (optPromPath opts) = None \/
     exists fi, w_stat w (optPromPath opts) = Some fi /\ fi_isdir fi = true /\
                w_readdir w (optPromPath opts) = None) /\
  (result (scan_pass opts w k) = Break ->
     effects (trace (scan_pass opts w k)) = [] /\
     forall c, replay (trace (scan_pass opts w k)) c = c).
Proof.
  split.
  - unfold scan_pass. destruct (w_stat w (optPromPath opts)) as [fi|] eqn:Hst.
    + rewrite !result_bind. unfold collect_files.
      destruct (fi_isdir fi) eqn:Hd.
      * destruct (w_readdir w (optPromPath opts)) as [entries|] eqn:Hrd.
        -- rewrite !result_bind. split; [discriminate|].
           intros [H | (fi' & _ & _ & H)]; discriminate H.
        -- split; [|reflexivity]. intros _. right. exists fi. repeat split. exact Hd.
      * rewrite !result_bind. split; [discriminate|].
        intros [H | (fi' & Hfi & Hd' & _)]; [discriminate H | congruence].
    + split; [|reflexivity]. intros _. left. reflexivity.
  - intros Hb.
    destruct (scan_pass_shape opts w k) as [[_ Ho] | [Hn _]]; [|congruence].
    split; [apply output_only_effects, Ho|].
    intros c. apply output_only_replay, Ho.
Qed.

(** X11. When the configured path is not a directory, the pass handles
    that one path, whatever its name: the [.prom] suffix is asked of the
    entries of a directory only.  Log lines apart, the pass is the clear,
    the handling of the path and the sleep. *)
Theorem X11_single_path_is_handled_whatever_its_name opts w k fi :
  w_stat w (optPromPath opts) = Some fi ->
  fi_isdir fi = false ->
  result (scan_pass opts w k) = Next /\
  effects (trace (scan_pass opts w k)) =
    EvClear ::
    effects (trace (process_file opts w false 0 0 (optPromPath opts)
                      (clock (debug_switch w (optPromPath opts) k)))) ++
    [EvSleep (optScanInterval opts)].
Proof.
  intros Hst Hd. unfold scan_pass. rewrite Hst. unfold collect_files. rewrite Hd.
  rewrite !result_bind, !trace_bind.
  set (r := debug_switch w (optPromPath opts) k).
  assert (Hdbg : output_only (trace r)) by apply debug_switch_spec.
  destruct (print_log_spec (result r) LogDebugMode (clock r)) as [Hk Ht].
  rewrite Hk. split; [reflexivity|].
  change (clock (log ?m ?k')) with k'.
  change (clock (emit ?e ?k')) with k'.
  rewrite !effects_app, (output_only_effects _ Hdbg), (output_only_effects _ Ht).
  simpl files_loop. rewrite trace_bind, !effects_app.
  destruct (process_file_same opts w (result r) (Z.of_nat 1) 0
              false 0 0 (optPromPath opts) (clock r)) as (_ & Hc & He).
  rewrite He.
  change (trace (log ?m ?k')) with [EvLog m].
  change (trace (emit ?e ?k')) with [e].
  change (trace (ret ?x ?k')) with (@nil Event).
  cbn [effects List.filter is_output negb app].
  rewrite !app_nil_r. reflexivity.
Qed.

Lemma X11_witness :
  effects (trace (scan_pass ex_opts_old ex_world_N O)) =
    [EvClear; EvExec "ls -l /m.prom"; EvSleep (30 * 1000000000)].
Proof.
  destruct (X11_single_path_is_handled_whatever_its_name ex_opts_old ex_world_N O ex_file)
    as [_ H]; [reflexivity | reflexivity |].
  rewrite H. vm_compute. reflexivity.
Defined.

(** ** The job *)

Lemma scan_pass_counts opts w k :
  (result (scan_pass opts w k) = Break /\
   clears (trace (scan_pass opts w k)) = O /\ sleeps (trace (scan_pass opts w k)) = []) \/
  (result (scan_pass opts w k) = Next /\
   clears (trace (scan_pass opts w k)) = 1%nat /\
   sleeps (trace (scan_pass opts w k)) = [optScanInterval opts]).
Proof.
  destruct (scan_pass_shape opts w k)
    as [[Hb Ho] | [Hn (pre & body & files & Ht & Hpre & Hbody)]].
  - left. destruct (output_only_quiet _ Ho) as [Hs Hc]. repeat split; assumption.
  - right. split; [exact Hn|].
    destruct (output_only_quiet _ Hpre) as [Hps Hpc].
    destruct (body_event_quiet _ _ Hbody) as (Hbs & Hbc & _).
    rewrite Ht, clears_app, sleeps_app, Hps, Hpc. simpl.
    rewrite clears_app, sleeps_app, Hbs, Hbc. split; reflexivity.
Qed.

(** X12. In the background job the collector is cleared once per
    completed pass and every completed pass is followed by one sleep of
    the scan interval; a pass that breaks does neither.  After [fuel]
    turns a job that is still looping has made [fuel] clears and
    [fuel] sleeps; a job that has ended has made fewer. *)
Theorem X12_one_clear_and_one_sleep_per_completed_pass opts worlds k fuel :
  sleeps (snd (scan_loop opts worlds k fuel)) =
    repeat (optScanInterval opts) (clears (snd (scan_loop opts worlds k fuel))) /\
  (fst (scan_loop opts worlds k fuel) = Looping ->
     clears (snd (scan_loop opts worlds k fuel)) = fuel) /\
  (fst (scan_loop opts worlds k fuel) = Ended ->
     (clears (snd (scan_loop opts worlds k fuel)) < fuel)%nat).
Proof.
  revert k. induction fuel as [|fuel IH]; intros k.
  - simpl. repeat split; discriminate.
  - simpl scan_loop.
    destruct (scan_pass_counts opts (worlds k) O) as [(Hr & Hc & Hs) | (Hr & Hc & Hs)];
      rewrite Hr; simpl fst; simpl snd.
    + rewrite Hc, Hs. repeat split; [discriminate | lia].
    + destruct (IH (S k)) as (IH1 & IH2 & IH3).
      rewrite clears_app, sleeps_app, Hc, Hs, IH1. simpl.
      split; [reflexivity|]. split.
      * intros Hl. rewrite (IH2 Hl). reflexivity.
      * intros He. specialize (IH3 He). lia.
Qed.

(** ** A file that cannot be looked at *)

Lemma process_file_stat_error opts w d n i f k :
  w_stat w f = None ->
  clock (process_file opts w d n i f k) = k /\
  output_only (trace (process_file opts w d n i f k)) /\
  EvLog (LogErrorStat (i + 1) n f) ∈ trace (process_file opts w d n i f k).
Proof.
  intros Hst. unfold process_file. rewrite Hst.
  set (printIt := d || (i <? 5) || (n - 5 <=? i)).
  destruct (print_log_spec printIt (LogProcessing (i + 1) n f) k) as [Hk Ht].
  rewrite clock_bind, trace_bind, Hk. split; [reflexivity|]. split.
  - apply output_only_app; [exact Ht | repeat constructor].
  - rewrite elem_of_app. right. apply list_elem_of_here.
Qed.

(** X13. A file of the list whose [os.Stat] fails when its turn comes
    (it was removed since the directory was read, say) is logged and
    skipped without reading the clock: log lines apart, the pass is the
    same as if the file were not on the list. *)
Theorem X13_unreadable_file_is_as_if_absent opts w d n i pre f post k :
  w_stat w f = None ->
  clock (files_loop opts w d n i (pre ++ f :: post) k) =
    clock (files_loop opts w d n i (pre ++ post) k) /\
  effects (trace (files_loop opts w d n i (pre ++ f :: post) k)) =
    effects (trace (files_loop opts w d n i (pre ++ post) k)) /\
  EvLog (LogErrorStat (i + Z.of_nat (length pre) + 1) n f)
    ∈ trace (files_loop opts w d n i (pre ++ f :: post) k).
Proof.
  intros Hst.
  set (k1 := clock (files_loop opts w d n i pre k)).
  set (i1 := i + Z.of_nat (length pre)).
  destruct (process_file_stat_error opts w d n i1 f k1 Hst) as (Hc & Ho & Hin).
  destruct (files_loop_app opts w d n i pre (f :: post) k) as [Ac At].
  destruct (files_loop_app opts w d n i pre post k) as [Bc Bt].
  destruct (files_loop_cons opts w d n i1 f post k1) as [Cc Ct].
  fold k1 i1 in Ac, At, Bc, Bt.
  destruct (files_loop_same opts w d n (i1 + 1) d n i1 post k1) as (_ & Sc & Se).
  split; [|split].
  - rewrite Ac, Bc, Cc, Hc. exact Sc.
  - rewrite At, Bt, Ct, !effects_app, (output_only_effects _ Ho), Hc, Se. reflexivity.
  - rewrite At, Ct, !elem_of_app. right. left. exact Hin.
Qed.

Lemma X13_witness :
  effects (trace (files_loop ex_opts ex_world_N false 2 0 (["/m.prom"] ++ "/gone.prom" :: []) O)) =
  effects (trace (files_loop ex_opts ex_world_N false 2 0 (["/m.prom"] ++ []) O)).
Proof.
  apply (X13_unreadable_file_is_as_if_absent ex_opts ex_world_N false 2 0
           ["/m.prom"] "/gone.prom" [] O).
  reflexivity.
Defined.

(** ** Old files are not opened *)

(** X14. An old file is not parsed: what the loop body does for a file
    that is older than the threshold is the same, event by event,
    whatever parsing the file would give, be it an error. *)
Theorem X14_old_file_is_never_parsed opts w d n i f fi k p :
  w_stat w f = Some fi ->
  fi_modtime fi + optOldFilesAge opts < w_now w k ->
  process_file opts (with_parseMF w p) d n i f k = process_file opts w d n i f k.
Proof.
  intros Hst Hold.
  assert (Hafter : After (w_now w k) (TimeAdd (fi_modtime fi) (optOldFilesAge opts)) = true).
  { unfold After, TimeAdd. apply Z.ltb_lt. exact Hold. }
  unfold process_file. simpl w_stat. rewrite Hst.
  rewrite !bind_eq.
  change (result (time_Now (with_parseMF w p) ?k')) with (w_now w k').
  change (result (time_Now w ?k')) with (w_now w k').
  change (clock (time_Now (with_parseMF w p) ?k')) with (S k').
  change (clock (time_Now w ?k')) with (S k').
  change (trace (time_Now (with_parseMF w p) ?k')) with (@nil Event).
  change (trace (time_Now w ?k')) with (@nil Event).
  destruct (print_log_spec (d || (i <? 5) || (n - 5 <=? i)) (LogProcessing (i + 1) n f) k)
    as [Hk _].
  rewrite Hk, Hafter. reflexivity.
Qed.

Lemma X14_witness :
  process_file ex_opts_old (with_parseMF ex_world_N (fun _ => None)) false 1 0 "/m.prom" O =
  process_file ex_opts_old ex_world_N false 1 0 "/m.prom" O.
Proof.
  apply (X14_old_file_is_never_parsed ex_opts_old ex_world_N false 1 0 "/m.prom" ex_file O);
    [reflexivity | vm_compute; reflexivity].
Defined.

(** ** Examples *)

Lemma X3_witness :
  call_data <$> adds (trace (process_file ex_opts ex_world_N1 false 1 0 "/m.prom" O)) =
    [("x", GaugeValue, 2, "help"); ("y", CounterValue, 5, "help")].
Proof.
  destruct (X3_current_file_adds_one_point_per_metric ex_opts ex_world_N1 false 1 0
              "/m.prom" ex_file
              [("x", ex_family MetricType_GAUGE [ex_metric [] 2 None]);
               ("y", ex_family MetricType_COUNTER [ex_metric [] 5 None])] O)
    as (H & _); [reflexivity | vm_compute; discriminate | reflexivity |].
  rewrite H. reflexivity.
Defined.

Lemma X5_witness :
  a_labels <$> adds (trace (family_loop ex_world_N false [("z", ex_family_uniform)] 0 O)) =
    [{["a" := "1"]}; {["a" := "2"]}].
Proof.
  rewrite (X5_uniform_label_names_give_exact_labels ex_world_N false
             [("z", ex_family_uniform)] 0 O).
  - vm_compute. reflexivity.
  - intros name mf Hin. apply list_elem_of_singleton in Hin.
    injection Hin as _ ->. intros m m' Hm Hm'.
    simpl in Hm, Hm'.
    rewrite !elem_of_cons in Hm, Hm'.
    destruct Hm as [-> | [-> | Hm]], Hm' as [-> | [-> | Hm']];
      try (apply elem_of_nil in Hm; contradiction);
      try (apply elem_of_nil in Hm'; contradiction);
      vm_compute; reflexivity.
Defined.

Lemma X7_witness :
  execs (trace (process_file ex_opts_old ex_world_N false 1 0 "/m.prom" O)) =
    ["ls -l " +:+ "/m.prom" +:+ EmptyString].
Proof.
  apply (X7_command_is_template_with_path ex_opts_old ex_world_N false 1 0
           "/m.prom" ex_file O "ls -l " EmptyString);
    [reflexivity | vm_compute; reflexivity | reflexivity | reflexivity | reflexivity].
Defined.

Lemma X8_witness :
  execs (trace (process_file ex_opts_plain ex_world_N false 1 0 "/m.prom" O)) = ["date"].
Proof.
  apply (X8_template_without_placeholder ex_opts_plain ex_world_N false 1 0
           "/m.prom" ex_file O);
    [reflexivity | vm_compute; reflexivity | reflexivity].
Defined.
